(** * ghrelease: release-change detection and state reconciliation

    A shallow embedding of [src/cli.ts].  JavaScript strings are modelled as
    [string] (the UTF-8 bytes of the text), numeric release identifiers as
    [Z], optional properties ([etag?: string]) as [option], the
    [Record<RepoKey, RepoState>] object as a [gmap string RepoState], thrown
    errors as a sum type, and every call to the outside (HTTP, mail
    transport, clock, console, file system) as a step of a small state and
    exception monad over an explicit system state. *)

From Stdlib Require Import ZArith String Ascii List Bool Lia.
From Stdlib Require Import DecimalString DecimalZ DecimalPos.
From stdpp Require Import base option gmap strings list.

Import ListNotations.
Local Open Scope string_scope.
Local Open Scope Z_scope.

(** ** Strings *)

Module Str.

(** [s.split(sep)] for a one-character separator: the segments between
    separators, in order; never empty (the empty string gives one empty
    segment). *)
Fixpoint split (sep : ascii) (s : string) : list string :=
  match s with
  | EmptyString => [EmptyString]
  | String c s' =>
      if Ascii.eqb c sep then EmptyString :: split sep s'
      else match split sep s' with
           | seg :: segs => String c seg :: segs
           | [] => [String c EmptyString]
           end
  end.

(** [sep] occurs in [s]. *)
Fixpoint mem (sep : ascii) (s : string) : bool :=
  match s with
  | EmptyString => false
  | String c s' => Ascii.eqb c sep || mem sep s'
  end.

Definition is_empty (s : string) : bool :=
  match s with EmptyString => true | _ => false end.

(** JavaScript truthiness of a possibly-undefined string: [undefined] and
    the empty string are falsy. *)
Definition truthy (o : option string) : bool :=
  match o with
  | Some s => negb (is_empty s)
  | None => false
  end.

(** [`${n}`] for an integral number. *)
Definition of_Z (z : Z) : string := NilZero.string_of_int (Z.to_int z).

Definition code (c : ascii) : N := N_of_ascii c.

(** One-byte white space and line terminators: TAB, LF, VT, FF, CR, SP. *)
Definition ws_ascii (c : ascii) : bool :=
  let n := code c in
  ((9 <=? n) && (n <=? 13) || (n =? 32))%N.

(** Drop one leading WhiteSpace or LineTerminator character, if there is
    one; the characters beyond ASCII are U+00A0, U+1680, U+2000..U+200A,
    U+2028, U+2029, U+202F, U+205F, U+3000 and U+FEFF, in UTF-8. *)
Definition strip_ws (s : string) : option string :=
  match s with
  | EmptyString => None
  | String c r =>
      if ws_ascii c then Some r
      else
        match r with
        | String d r1 =>
            if ((code c =? 194) && (code d =? 160))%N then Some r1
            else
              match r1 with
              | String e r2 =>
                  let c := code c in
                  let d := code d in
                  let e := code e in
                  if ((c =? 225) && (d =? 154) && (e =? 128)
                      || (c =? 226) && (d =? 128)
                         && ((128 <=? e) && (e <=? 138)
                             || (e =? 168) || (e =? 169) || (e =? 175))
                      || (c =? 226) && (d =? 129) && (e =? 159)
                      || (c =? 227) && (d =? 128) && (e =? 128)
                      || (c =? 239) && (d =? 187) && (e =? 191))%N
                  then Some r2 else None
              | EmptyString => None
              end
        | EmptyString => None
        end
  end.

Fixpoint trimStart_aux (fuel : nat) (s : string) : string :=
  match fuel with
  | O => s
  | S fuel' =>
      match strip_ws s with
      | Some r => trimStart_aux fuel' r
      | None => s
      end
  end.

Definition trimStart (s : string) : string :=
  trimStart_aux (String.length s) s.

Fixpoint trimEnd (s : string) : string :=
  match s with
  | EmptyString => EmptyString
  | String c r =>
      if is_empty (trimStart s) then EmptyString else String c (trimEnd r)
  end.

(** [s.trim()] *)
Definition trim (s : string) : string := trimEnd (trimStart s).

(** [s.startsWith(p)] *)
Definition startsWith (s p : string) : bool := String.prefix p s.

(** [parts.join(sep)] *)
Definition join (sep : string) (parts : list string) : string :=
  String.concat sep parts.

(** The text after the first [>] of [s]. *)
Fixpoint after_gt (s : string) : option string :=
  match s with
  | EmptyString => None
  | String c r => if Ascii.eqb c ">" then Some r else after_gt r
  end.

(** [s.replace(/<[^>]+>/g, '')]: at a [<] that is followed by one
    character other than [>] and, later, by a [>], everything up to the
    first such [>] is removed. *)
Fixpoint replace_tags (fuel : nat) (s : string) : string :=
  match fuel with
  | O => s
  | S fuel' =>
      match s with
      | EmptyString => EmptyString
      | String c r =>
          if Ascii.eqb c "<" then
            match r with
            | String d r' =>
                if Ascii.eqb d ">" then String c (replace_tags fuel' r)
                else match after_gt r' with
                     | Some rest => replace_tags fuel' rest
                     | None => String c (replace_tags fuel' r)
                     end
            | EmptyString => s
            end
          else String c (replace_tags fuel' r)
      end
  end.

End Str.

(** ** Errors *)

(** A thrown [Error]; only its [message] is ever read ([err.message]). *)
Inductive Exn : Type :=
| Error (message : string).

Definition message (e : Exn) : string :=
  match e with Error m => m end.

Definition Result (A : Type) : Type := Exn + A.

(** ** Repository identifiers *)

Definition RepoKey : Type := string.

(** [parseRepo]: destructure the first two segments of [input.split('/')];
    a segment that is missing or empty is falsy. *)
Definition parseRepo (input : string) : Result RepoKey :=
  let parts := Str.split "/" input in
  let owner := nth_error parts 0 in
  let repo := nth_error parts 1 in
  if negb (Str.truthy owner) || negb (Str.truthy repo) then
    inl (Error ("Invalid repo: " ++ input ++ ". Expected owner/name."))
  else
    inr (default "" owner ++ "/" ++ default "" repo).

(** ** Data model *)

Module Release.
(** A release as the API returns it ([type Release]); [null] and a missing
    optional property are both [None].  Identifiers are integers, as the
    API assigns them; JavaScript numbers that are no integers are outside
    the model. *)
Record t : Type := mk {
  id : Z;
  tag_name : string;
  name : option string;
  html_url : string;
  published_at : string;
  body : option string;
  author_login : option string;
}.
End Release.

Record RepoState : Type := mkRepoState {
  etag : option string;
  lastReleaseId : option Z;
  lastTag : option string;
  lastPublishedAt : option string;
  lastCheckedAt : option string;
}.

(** The object literal [{}]. *)
Definition emptyRepoState : RepoState :=
  mkRepoState None None None None None.

(** [{ ...repoState, lastCheckedAt: now }]. *)
Definition withCheckedAt (repoState : RepoState) (now : string) : RepoState :=
  {| etag := etag repoState;
     lastReleaseId := lastReleaseId repoState;
     lastTag := lastTag repoState;
     lastPublishedAt := lastPublishedAt repoState;
     lastCheckedAt := Some now |}.

Record StateFile : Type := mkStateFile {
  repos : gmap string RepoState;
}.

(** [state.repos[repo] ?? {}] *)
Definition repoStateOf (state : StateFile) (repo : RepoKey) : RepoState :=
  default emptyRepoState (repos state !! repo).

(** [state.repos[repo] = repoState] *)
Definition setRepoState (state : StateFile) (repo : RepoKey)
    (repoState : RepoState) : StateFile :=
  {| repos := <[repo := repoState]> (repos state) |}.

Inductive FetchResult : Type :=
| not_modified
| no_releases
| ok (release : Release.t) (etag : option string).

(** ** The outside world *)

Record Request : Type := mkRequest {
  url : string;
  headers : list (string * string);
}.

(** What the code reads of a [Response]: [resp.status], [resp.ok],
    [resp.headers.get('etag')], [await resp.text()] and
    [(await resp.json()) as Release], which rejects when the body is not
    JSON.  The cast is unchecked: a body that is JSON but not of type
    [Release] is outside the model. *)
Record Response : Type := mkResponse {
  status : Z;
  resp_etag : option string;
  resp_text : string;
  resp_json : Result Release.t;
}.

Definition resp_ok (resp : Response) : bool :=
  (200 <=? status resp) && (status resp <=? 299).

Record MailInput : Type := mkMailInput {
  to : list string;
  from : string;
  subject : string;
  html : string;
  text : option string;
}.

(** The message handed to [transporter.sendMail]. *)
Record SmtpMessage : Type := mkSmtpMessage {
  smtp_from : string;
  smtp_to : string;
  smtp_subject : string;
  smtp_html : string;
  smtp_text : string;
}.

(** [Bun.env] after [envSchema] accepted it. *)
Record Env : Type := mkEnv {
  GITHUB_TOKEN : option string;
  MAIL_TO : string;
  MAIL_FROM : string;
  RESEND_API_KEY : option string;
  SMTP_HOST : option string;
  SMTP_PORT : option string;
  SMTP_SECURE : option string;
  SMTP_USER : option string;
  SMTP_PASS : option string;
}.

(** [args.values] *)
Record Args : Type := mkArgs {
  arg_repo : option (list string);
  arg_config_file : option string;
  arg_state_file : option string;
  arg_dry_run : bool;
  arg_force : bool;
  arg_help : bool;
}.

Record Rendered : Type := mkRendered {
  r_subject : string;
  r_html : string;
  r_text : string;
}.

(** One line written to the console. *)
Inductive ConsoleLine : Type :=
| LogNoChanges (repo : RepoKey)
| LogNoReleases (repo : RepoKey)
| LogAlreadyTracked (repo : RepoKey) (tag : string) (id : Z)
| LogDryRun (repo : RepoKey) (to : list string) (subject : string)
| LogSent (repo : RepoKey) (tag : string)
| LogError (repo : RepoKey) (msg : string)
| LogDone (changed : nat).

(** The calls the program makes to its collaborators, in order. *)
Inductive Event : Type :=
| EFetch (req : Request)
| ESendEmail (input : MailInput)
| EConsole (line : ConsoleLine).

(** The collaborators, as transitions of an arbitrary world [W]: the HTTP
    client, the two mail transports, the clock behind
    [new Date().toISOString()], and the message template [renderEmail],
    whose HTML depends on the locale and the time zone of the host
    ([toLocaleString]). *)
Record Collab (W : Type) : Type := mkCollab {
  http_fetch : Request -> W -> Result Response * W;
  resend_send : MailInput -> W -> Result (option string) * W;
  smtp_sendMail : Env -> SmtpMessage -> W -> Result unit * W;
  clock_now : W -> string * W;
  renderEmail : RepoKey -> Release.t -> Rendered;
}.
Arguments http_fetch {W}.
Arguments resend_send {W}.
Arguments smtp_sendMail {W}.
Arguments clock_now {W}.
Arguments renderEmail {W}.

Record Sys (W : Type) : Type := mkSys {
  world : W;
  files : gmap string string;
  trace : list Event;
}.
Arguments mkSys {W}.
Arguments world {W}.
Arguments files {W}.
Arguments trace {W}.

(** ** Small helpers of the command-line program *)

Definition listifyTo (to : string) : list string :=
  filter (fun part => negb (Str.is_empty part))
         (map Str.trim (Str.split "," to)).

Definition stripHtml (value : string) : string :=
  Str.replace_tags (String.length value) value.

Definition patPrefixes : list string :=
  ["ghp_"; "gho_"; "ghu_"; "ghs_"; "ghr_"].

Definition formatGithubAuthorization (token : string) : string :=
  let trimmed := Str.trim token in
  if existsb (fun prefix => Str.startsWith trimmed prefix) patPrefixes
  then "token " ++ trimmed
  else "Bearer " ++ trimmed.

Definition GITHUB_API_VERSION : string := "2022-11-28".
Definition DEFAULT_STATE : string := "./state.json".


(** ** JSON: the built-ins [JSON.stringify] and [JSON.parse]

    Values are the JSON data of ECMA-404.  Object members keep the order of
    their first definition and a key is bound once, as in a JavaScript
    object.  An integral literal is a [Num]; a literal with a fraction or
    an exponent is kept as written in [Float] and written back as it was
    read.  A [\uXXXX] escape is read one code unit at a time, each unit
    giving its own bytes. *)

Module JSON.

#[local] Unset Elimination Schemes.
Inductive value : Type :=
| Null
| Bool (b : bool)
| Num (n : Z)
| Float (literal : string)
| Str (s : string)
| Arr (items : list value)
| Obj (members : list (string * value)).
#[local] Set Elimination Schemes.

Definition dquote : ascii := ascii_of_N 34.
Definition backslash : ascii := ascii_of_N 92.

(** *** Writing *)

Definition hex_digit (n : N) : ascii :=
  if (n <? 10)%N then ascii_of_N (48 + n) else ascii_of_N (87 + n).

(** QuoteJSONString, one character at a time. *)
Definition escape_char (c : ascii) : string :=
  let n := Str.code c in
  if (n =? 34)%N then String backslash (String dquote "")
  else if (n =? 92)%N then String backslash (String backslash "")
  else if (n =? 8)%N then "\b"
  else if (n =? 12)%N then "\f"
  else if (n =? 10)%N then "\n"
  else if (n =? 13)%N then "\r"
  else if (n =? 9)%N then "\t"
  else if (n <? 32)%N then
    String backslash (String "u" (String "0" (String "0"
      (String (hex_digit (n / 16)) (String (hex_digit (n mod 16)) "")))))
  else String c "".

Fixpoint escape (s : string) : string :=
  match s with
  | EmptyString => EmptyString
  | String c s' => escape_char c ++ escape s'
  end.

Definition quote (s : string) : string :=
  String dquote (escape s ++ String dquote "").

(** The indentation of nesting depth [depth] for a gap of two spaces. *)
Fixpoint indent (depth : nat) : string :=
  match depth with
  | O => ""
  | S d => "  " ++ indent d
  end.

Definition LF : string := String (ascii_of_N 10) "".

(** [first ++ sep ++ second ++ sep ++ ...] *)
Fixpoint sep_by (sep : string) (parts : list string) : string :=
  match parts with
  | [] => ""
  | [p] => p
  | p :: ps => p ++ sep ++ sep_by sep ps
  end.

(** SerializeJSONProperty with a gap of two spaces, at nesting [depth]. *)
Fixpoint serialize (depth : nat) (v : value) : string :=
  match v with
  | Null => "null"
  | Bool true => "true"
  | Bool false => "false"
  | Num n => Str.of_Z n
  | Float literal => literal
  | Str s => quote s
  | Arr [] => "[]"
  | Arr items =>
      "[" ++ LF ++ indent (S depth)
      ++ sep_by ("," ++ LF ++ indent (S depth))
                (map (serialize (S depth)) items)
      ++ LF ++ indent depth ++ "]"
  | Obj [] => "{}"
  | Obj members =>
      "{" ++ LF ++ indent (S depth)
      ++ sep_by ("," ++ LF ++ indent (S depth))
                (map (fun m => quote (fst m) ++ ": "
                               ++ serialize (S depth) (snd m)) members)
      ++ LF ++ indent depth ++ "}"
  end.

(** [JSON.stringify(v, null, 2)] *)
Definition stringify (v : value) : string := serialize 0 v.

(** *** Reading: the lexical grammar *)

Inductive token : Type :=
| TLBrace | TRBrace | TLBrack | TRBrack | TColon | TComma
| TStr (s : string)
| TNum (n : Z)
| TFloat (literal : string)
| TTrue | TFalse | TNull.

(** Where a number literal stands after the characters read so far. *)
Inductive num_phase : Type :=
| PMinus | PZero | PInt | PDot | PFrac | PExp | PExpSign | PExpDigits.

Inductive lex_state : Type :=
| LTop
| LStr (acc : string)
| LEsc (acc : string)
| LHex (acc : string) (digits : list N)
| LNum (raw : string) (phase : num_phase)
| LLit (expect : string) (tok : token).

Definition snoc (s : string) (c : ascii) : string := s ++ String c "".

Definition is_digit (c : ascii) : bool :=
  let n := Str.code c in ((48 <=? n) && (n <=? 57))%N.

Definition is_exp (c : ascii) : bool :=
  Ascii.eqb c "e" || Ascii.eqb c "E".

Definition is_json_ws (c : ascii) : bool :=
  let n := Str.code c in
  ((n =? 32) || (n =? 9) || (n =? 10) || (n =? 13))%N.

Definition hex_val (c : ascii) : option N :=
  let n := Str.code c in
  if ((48 <=? n) && (n <=? 57))%N then Some (n - 48)%N
  else if ((97 <=? n) && (n <=? 102))%N then Some (n - 87)%N
  else if ((65 <=? n) && (n <=? 70))%N then Some (n - 55)%N
  else None.

(** The bytes of one UTF-16 code unit, each unit encoded on its own. *)
Definition encode_unit (u : N) : string :=
  if (u <? 128)%N then String (ascii_of_N u) ""
  else if (u <? 2048)%N then
    String (ascii_of_N (192 + u / 64))
      (String (ascii_of_N (128 + u mod 64)) "")
  else
    String (ascii_of_N (224 + u / 4096))
      (String (ascii_of_N (128 + (u / 64) mod 64))
        (String (ascii_of_N (128 + u mod 64)) "")).

(** The token of a finished number literal. *)
Definition num_token (raw : string) (phase : num_phase) : option token :=
  match phase with
  | PZero | PInt =>
      match NilZero.int_of_string raw with
      | Some d => Some (TNum (Z.of_int d))
      | None => None
      end
  | PFrac | PExpDigits => Some (TFloat raw)
  | PMinus | PDot | PExp | PExpSign => None
  end.

(** A character met between tokens. *)
Definition top_step (c : ascii) : option (lex_state * list token) :=
  if is_json_ws c then Some (LTop, [])
  else if Ascii.eqb c "{" then Some (LTop, [TLBrace])
  else if Ascii.eqb c "}" then Some (LTop, [TRBrace])
  else if Ascii.eqb c "[" then Some (LTop, [TLBrack])
  else if Ascii.eqb c "]" then Some (LTop, [TRBrack])
  else if Ascii.eqb c ":" then Some (LTop, [TColon])
  else if Ascii.eqb c "," then Some (LTop, [TComma])
  else if Ascii.eqb c dquote then Some (LStr "", [])
  else if Ascii.eqb c "-" then Some (LNum "-" PMinus, [])
  else if Ascii.eqb c "0" then Some (LNum "0" PZero, [])
  else if is_digit c then Some (LNum (String c "") PInt, [])
  else if Ascii.eqb c "t" then Some (LLit "rue" TTrue, [])
  else if Ascii.eqb c "f" then Some (LLit "alse" TFalse, [])
  else if Ascii.eqb c "n" then Some (LLit "ull" TNull, [])
  else None.

(** The number literal ends before [c]. *)
Definition end_number (raw : string) (phase : num_phase) (c : ascii)
    : option (lex_state * list token) :=
  match num_token raw phase, top_step c with
  | Some t, Some (st, out) => Some (st, t :: out)
  | _, _ => None
  end.

Definition step (st : lex_state) (c : ascii)
    : option (lex_state * list token) :=
  match st with
  | LTop => top_step c
  | LStr acc =>
      if Ascii.eqb c dquote then Some (LTop, [TStr acc])
      else if Ascii.eqb c backslash then Some (LEsc acc, [])
      else if (Str.code c <? 32)%N then None
      else Some (LStr (snoc acc c), [])
  | LEsc acc =>
      if Ascii.eqb c dquote then Some (LStr (snoc acc dquote), [])
      else if Ascii.eqb c backslash then Some (LStr (snoc acc backslash), [])
      else if Ascii.eqb c "/" then Some (LStr (snoc acc "/"), [])
      else if Ascii.eqb c "b" then Some (LStr (snoc acc (ascii_of_N 8)), [])
      else if Ascii.eqb c "f" then Some (LStr (snoc acc (ascii_of_N 12)), [])
      else if Ascii.eqb c "n" then Some (LStr (snoc acc (ascii_of_N 10)), [])
      else if Ascii.eqb c "r" then Some (LStr (snoc acc (ascii_of_N 13)), [])
      else if Ascii.eqb c "t" then Some (LStr (snoc acc (ascii_of_N 9)), [])
      else if Ascii.eqb c "u" then Some (LHex acc [], [])
      else None
  | LHex acc digits =>
      match hex_val c with
      | None => None
      | Some h =>
          match digits with
          | [h1; h2; h3] =>
              Some (LStr (acc ++ encode_unit
                            (((h1 * 16 + h2) * 16 + h3) * 16 + h)%N), [])
          | _ => Some (LHex acc (digits ++ [h])%list, [])
          end
      end
  | LNum raw phase =>
      match phase with
      | PMinus =>
          if Ascii.eqb c "0" then Some (LNum (snoc raw c) PZero, [])
          else if is_digit c then Some (LNum (snoc raw c) PInt, [])
          else None
      | PZero =>
          if Ascii.eqb c "." then Some (LNum (snoc raw c) PDot, [])
          else if is_exp c then Some (LNum (snoc raw c) PExp, [])
          else if is_digit c then None
          else end_number raw phase c
      | PInt =>
          if is_digit c then Some (LNum (snoc raw c) PInt, [])
          else if Ascii.eqb c "." then Some (LNum (snoc raw c) PDot, [])
          else if is_exp c then Some (LNum (snoc raw c) PExp, [])
          else end_number raw phase c
      | PDot =>
          if is_digit c then Some (LNum (snoc raw c) PFrac, []) else None
      | PFrac =>
          if is_digit c then Some (LNum (snoc raw c) PFrac, [])
          else if is_exp c then Some (LNum (snoc raw c) PExp, [])
          else end_number raw phase c
      | PExp =>
          if Ascii.eqb c "+" || Ascii.eqb c "-"
          then Some (LNum (snoc raw c) PExpSign, [])
          else if is_digit c then Some (LNum (snoc raw c) PExpDigits, [])
          else None
      | PExpSign =>
          if is_digit c then Some (LNum (snoc raw c) PExpDigits, [])
          else None
      | PExpDigits =>
          if is_digit c then Some (LNum (snoc raw c) PExpDigits, [])
          else end_number raw phase c
      end
  | LLit expect tok =>
      match expect with
      | String e EmptyString =>
          if Ascii.eqb c e then Some (LTop, [tok]) else None
      | String e rest =>
          if Ascii.eqb c e then Some (LLit rest tok, []) else None
      | EmptyString => None
      end
  end.

(** The end of the text. *)
Definition finish (st : lex_state) : option (list token) :=
  match st with
  | LTop => Some []
  | LNum raw phase =>
      match num_token raw phase with
      | Some t => Some [t]
      | None => None
      end
  | _ => None
  end.

Fixpoint lex (st : lex_state) (s : string) : option (list token) :=
  match s with
  | EmptyString => finish st
  | String c s' =>
      match step st c with
      | None => None
      | Some (st', out) =>
          match lex st' s' with
          | None => None
          | Some ts => Some (out ++ ts)%list
          end
      end
  end.

(** *** Reading: the syntactic grammar *)

(** [obj[key] = v] on the members read so far: a key met again keeps its
    place and takes the later value. *)
Fixpoint obj_set (key : string) (v : value) (members : list (string * value))
    : list (string * value) :=
  match members with
  | [] => [(key, v)]
  | (k, w) :: rest =>
      if String.eqb k key then (k, v) :: rest
      else (k, w) :: obj_set key v rest
  end.

Fixpoint parse_value (fuel : nat) (ts : list token)
    : option (value * list token) :=
  match fuel with
  | O => None
  | S fuel' =>
      match ts with
      | TNull :: r => Some (Null, r)
      | TTrue :: r => Some (Bool true, r)
      | TFalse :: r => Some (Bool false, r)
      | TNum n :: r => Some (Num n, r)
      | TFloat l :: r => Some (Float l, r)
      | TStr s :: r => Some (Str s, r)
      | TLBrack :: TRBrack :: r => Some (Arr [], r)
      | TLBrack :: r => parse_items fuel' r []
      | TLBrace :: TRBrace :: r => Some (Obj [], r)
      | TLBrace :: r => parse_members fuel' r []
      | _ => None
      end
  end
with parse_items (fuel : nat) (ts : list token) (acc : list value)
    : option (value * list token) :=
  match fuel with
  | O => None
  | S fuel' =>
      match parse_value fuel' ts with
      | Some (v, TComma :: r) => parse_items fuel' r (acc ++ [v])%list
      | Some (v, TRBrack :: r) => Some (Arr (acc ++ [v])%list, r)
      | _ => None
      end
  end
with parse_members (fuel : nat) (ts : list token)
    (acc : list (string * value)) : option (value * list token) :=
  match fuel with
  | O => None
  | S fuel' =>
      match ts with
      | TStr key :: TColon :: r =>
          match parse_value fuel' r with
          | Some (v, TComma :: r') =>
              parse_members fuel' r' (obj_set key v acc)
          | Some (v, TRBrace :: r') => Some (Obj (obj_set key v acc), r')
          | _ => None
          end
      | _ => None
      end
  end.

(** [JSON.parse(text)]; [None] is a [SyntaxError]. *)
Definition parse (text : string) : option value :=
  match lex LTop text with
  | None => None
  | Some ts =>
      match parse_value (S (length ts)) ts with
      | Some (v, []) => Some v
      | _ => None
      end
  end.

End JSON.


(** ** The state document *)

(** A property that [JSON.stringify] writes only when it is defined. *)
Definition field {A : Type} (key : string) (f : A -> JSON.value)
    (o : option A) : list (string * JSON.value) :=
  match o with
  | Some a => [(key, f a)]
  | None => []
  end.

Definition json_of_RepoState (r : RepoState) : JSON.value :=
  JSON.Obj (field "etag" JSON.Str (etag r)
            ++ field "lastReleaseId" JSON.Num (lastReleaseId r)
            ++ field "lastTag" JSON.Str (lastTag r)
            ++ field "lastPublishedAt" JSON.Str (lastPublishedAt r)
            ++ field "lastCheckedAt" JSON.Str (lastCheckedAt r))%list.

Definition json_of_StateFile (state : StateFile) : JSON.value :=
  JSON.Obj
    [("repos",
      JSON.Obj (map (fun kr => (fst kr, json_of_RepoState (snd kr)))
                    (map_to_list (repos state))))].

(** [obj[key]] on the members of a parsed object. *)
Fixpoint property (key : string) (members : list (string * JSON.value))
    : option JSON.value :=
  match members with
  | [] => None
  | (k, v) :: rest => if String.eqb k key then Some v else property key rest
  end.

(** An optional string property: [Some None] when it is missing, [None]
    when it holds anything but a string. *)
Definition string_property (key : string)
    (members : list (string * JSON.value)) : option (option string) :=
  match property key members with
  | None => Some None
  | Some (JSON.Str s) => Some (Some s)
  | Some _ => None
  end.

Definition number_property (key : string)
    (members : list (string * JSON.value)) : option (option Z) :=
  match property key members with
  | None => Some None
  | Some (JSON.Num n) => Some (Some n)
  | Some _ => None
  end.

Definition RepoState_keys : list string :=
  ["etag"; "lastReleaseId"; "lastTag"; "lastPublishedAt"; "lastCheckedAt"].

(** The unchecked cast [as RepoState], made explicit: [None] for a value
    that is not of the declared type, which this model does not follow. *)
Definition as_RepoState (v : JSON.value) : option RepoState :=
  match v with
  | JSON.Obj members =>
      if forallb (fun m => existsb (String.eqb (fst m)) RepoState_keys)
                 members
      then
        match string_property "etag" members,
              number_property "lastReleaseId" members,
              string_property "lastTag" members,
              string_property "lastPublishedAt" members,
              string_property "lastCheckedAt" members with
        | Some e, Some i, Some t, Some p, Some c =>
            Some (mkRepoState e i t p c)
        | _, _, _, _, _ => None
        end
      else None
  | _ => None
  end.

Fixpoint as_repos (members : list (string * JSON.value))
    : option (list (string * RepoState)) :=
  match members with
  | [] => Some []
  | (k, v) :: rest =>
      match as_RepoState v, as_repos rest with
      | Some r, Some rs => Some ((k, r) :: rs)
      | _, _ => None
      end
  end.

(** The unchecked cast [as StateFile], made explicit in the same way. *)
Definition as_StateFile (v : JSON.value) : option StateFile :=
  match v with
  | JSON.Obj [(k, JSON.Obj members)] =>
      if String.eqb k "repos" then
        match as_repos members with
        | Some rs => Some (mkStateFile (list_to_map rs))
        | None => None
        end
      else None
  | _ => None
  end.

(** ** The program *)

(** How a run ends when nothing is thrown out of it: [process.exit(0)]
    after the help text, [process.exit(1)] after the usage text, the end
    of the main function, or, for [IllTypedState], a state file that holds
    JSON which is not of type [StateFile], where the run leaves the
    model. *)
Inductive Exit : Type :=
| ExitHelp
| ExitUsage
| IllTypedState
| Finished (changed : nat).

Section Program.

Context {W : Type} (X : Collab W) (args : Args) (env : Env).

(** Computations that call the collaborators and may throw. *)
Definition M (A : Type) : Type := Sys W -> Result A * Sys W.

Definition ret {A : Type} (a : A) : M A := fun sys => (inr a, sys).

Definition throw {A : Type} (e : Exn) : M A := fun sys => (inl e, sys).

Definition bind {A B : Type} (m : M A) (k : A -> M B) : M B :=
  fun sys =>
    match m sys with
    | (inr a, sys') => k a sys'
    | (inl e, sys') => (inl e, sys')
    end.

(** [try { m } catch (err) { handler(err) }] *)
Definition try_catch {A : Type} (m : M A) (handler : Exn -> M A) : M A :=
  fun sys =>
    match m sys with
    | (inr a, sys') => (inr a, sys')
    | (inl e, sys') => handler e sys'
    end.

Notation "'let!' x ':=' m 'in' k" := (bind m (fun x => k))
  (at level 10, x pattern, m at level 100, k at level 200).

Definition emit (e : Event) : M unit :=
  fun sys => (inr tt, mkSys (world sys) (files sys) (trace sys ++ [e])).

(** A call to a collaborator: a transition of the world. *)
Definition call {A : Type} (f : W -> Result A * W) : M A :=
  fun sys =>
    let '(r, w) := f (world sys) in (r, mkSys w (files sys) (trace sys)).

Definition console (line : ConsoleLine) : M unit := emit (EConsole line).

(** [new Date().toISOString()] *)
Definition now : M string :=
  call (fun w => let '(t, w') := clock_now X w in (inr t, w')).

Definition fetch (req : Request) : M Response :=
  let! _ := emit (EFetch req) in call (http_fetch X req).

(** [fs.readFile(filePath, 'utf8')].  The file system is a map from paths
    to contents: a file can be read when it is there, and writing a file
    succeeds. *)
Definition readFile (filePath : string) : M string :=
  fun sys =>
    match files sys !! filePath with
    | Some data => (inr data, sys)
    | None =>
        (inl (Error ("ENOENT: no such file or directory, open " ++ filePath)),
         sys)
    end.

(** [fs.writeFile(filePath, data)] *)
Definition writeFile (filePath data : string) : M unit :=
  fun sys =>
    (inr tt, mkSys (world sys) (<[filePath := data]> (files sys)) (trace sys)).

(** [readState]: with the file missing or not JSON the state is empty.
    The result is [None] when the file holds JSON that is not of type
    [StateFile] (see [as_StateFile]). *)
Definition readState (filePath : string) : M (option StateFile) :=
  try_catch
    (let! data := readFile filePath in
     match JSON.parse data with
     | Some v => ret (as_StateFile v)
     | None => throw (Error "JSON Parse error")
     end)
    (fun _ => ret (Some (mkStateFile ∅))).

(** [writeState].  Directories are not part of the modelled file system:
    [ensureDir] has nothing to create. *)
Definition writeState (filePath : string) (state : StateFile) : M unit :=
  writeFile filePath
    (JSON.stringify (json_of_StateFile state) ++ JSON.LF).

Definition release_url (repo : RepoKey) : string :=
  "https://api.github.com/repos/" ++ repo ++ "/releases/latest".

(** The headers of the request, in the order they are set. *)
Definition request_headers (token : option string) (etag : option string)
    : list (string * string) :=
  let headers :=
    [("Accept", "application/vnd.github+json");
     ("X-GitHub-Api-Version", GITHUB_API_VERSION);
     ("User-Agent", "ghrelease-cli")] in
  let headers :=
    if Str.truthy token
    then (headers ++ [("Authorization",
                       formatGithubAuthorization (default "" token))])%list
    else headers in
  if Str.truthy etag && negb (arg_force args)
  then (headers ++ [("If-None-Match", default "" etag)])%list
  else headers.

Definition fetchLatestRelease (repo : RepoKey) (token : option string)
    (etag : option string) : M FetchResult :=
  let url := release_url repo in
  let headers := request_headers token etag in
  let! resp := fetch (mkRequest url headers) in
  if status resp =? 304 then ret not_modified
  else if status resp =? 404 then ret no_releases
  else if negb (resp_ok resp) then
    let body := resp_text resp in
    throw (Error ("GitHub API " ++ Str.of_Z (status resp) ++ " for " ++ url
                  ++ ": " ++ body))
  else
    match resp_json resp with
    | inl e => throw e
    | inr data => ret (ok data (resp_etag resp))
    end.

Definition sendEmail (input : MailInput) : M unit :=
  let! _ := emit (ESendEmail input) in
  if Str.truthy (RESEND_API_KEY env) then
    let! res_error := call (resend_send X input) in
    match res_error with
    | Some msg => throw (Error ("Resend error: " ++ msg))
    | None => ret tt
    end
  else if Str.truthy (SMTP_HOST env) then
    call (smtp_sendMail X env
            (mkSmtpMessage (from input) (Str.join ", " (to input))
               (subject input) (html input)
               (default (stripHtml (html input)) (text input))))
  else
    throw (Error
      "No email provider configured. Set RESEND_API_KEY or SMTP_* env vars.").

Definition loadReposFromConfig (filePath : string) : M (list JSON.value) :=
  try_catch
    (let! content := readFile filePath in
     match JSON.parse content with
     | None => throw (Error "JSON Parse error")
     | Some JSON.Null =>
         throw (Error "null is not an object (evaluating 'config.repos')")
     | Some (JSON.Obj members) =>
         match property "repos" members with
         | Some (JSON.Arr items) => ret items
         | _ => throw (Error
                  ("Config file must have a " ++ JSON.quote "repos"
                   ++ " array"))
         end
     | Some _ =>
         throw (Error
           ("Config file must have a " ++ JSON.quote "repos" ++ " array"))
     end)
    (fun err =>
       throw (Error ("Failed to load config file " ++ filePath ++ ": "
                     ++ message err))).

(** [parseRepo] on an entry of the list: an entry of the config file that
    is not a string has no [split] method. *)
Definition parseRepoEntry (input : JSON.value) : Result RepoKey :=
  match input with
  | JSON.Str s => parseRepo s
  | _ => inl (Error "input.split is not a function")
  end.

(** [repoList.map(parseRepo)]: the first entry that throws ends it. *)
Fixpoint parseRepos (repoList : list JSON.value) : Result (list RepoKey) :=
  match repoList with
  | [] => inr []
  | input :: rest =>
      match parseRepoEntry input with
      | inl e => inl e
      | inr repo =>
          match parseRepos rest with
          | inl e => inl e
          | inr repos => inr (repo :: repos)
          end
      end
  end.

Definition isNew (repoState : RepoState) (release : Release.t) : bool :=
  negb (bool_decide (lastReleaseId repoState = Some (Release.id release)))
  || negb (bool_decide (lastTag repoState = Some (Release.tag_name release)))
  || arg_force args.

(** The [try] block of one turn of the [for] loop of the main function.
    The result is the state object once the block is through and whether
    [changed] was incremented. *)
Definition attempt (state : StateFile) (repo : RepoKey)
    : M (StateFile * bool) :=
  let repoState := repoStateOf state repo in
  let! result :=
    fetchLatestRelease repo (GITHUB_TOKEN env) (etag repoState) in
  match result with
  | not_modified =>
      let! _ := console (LogNoChanges repo) in
      let! t := now in
      ret (setRepoState state repo (withCheckedAt repoState t), false)
  | no_releases =>
      let! _ := console (LogNoReleases repo) in
      let! t := now in
      ret (setRepoState state repo (withCheckedAt repoState t), false)
  | ok release etag' =>
      if negb (isNew repoState release) then
        let! _ := console (LogAlreadyTracked repo
                             (Release.tag_name release)
                             (Release.id release)) in
        let! t := now in
        ret (setRepoState state repo
               {| etag := match etag' with
                          | Some e => Some e
                          | None => etag repoState
                          end;
                  lastReleaseId := lastReleaseId repoState;
                  lastTag := lastTag repoState;
                  lastPublishedAt := lastPublishedAt repoState;
                  lastCheckedAt := Some t |}, false)
      else
        let mail := renderEmail X repo release in
        let to := listifyTo (MAIL_TO env) in
        let from := MAIL_FROM env in
        let! _ :=
          if arg_dry_run args then
            console (LogDryRun repo to (r_subject mail))
          else
            let! _ := sendEmail (mkMailInput to from (r_subject mail)
                                   (r_html mail) (Some (r_text mail))) in
            console (LogSent repo (Release.tag_name release)) in
        let! t := now in
        ret (setRepoState state repo
               {| etag := etag';
                  lastReleaseId := Some (Release.id release);
                  lastTag := Some (Release.tag_name release);
                  lastPublishedAt := Some (Release.published_at release);
                  lastCheckedAt := Some t |}, true)
  end.

(** The [catch] block of the turn. *)
Definition recover (state : StateFile) (repo : RepoKey) (err : Exn)
    : M (StateFile * bool) :=
  let repoState := repoStateOf state repo in
  let! _ := console (LogError repo (message err)) in
  let! t := now in
  ret (setRepoState state repo (withCheckedAt repoState t), false).

(** One turn of the loop: one repository's reconciliation cycle. *)
Definition reconcile (state : StateFile) (repo : RepoKey)
    : M (StateFile * bool) :=
  try_catch (attempt state repo) (recover state repo).

(** [for (const repo of repos) { ... }] *)
Fixpoint loop (repos : list RepoKey) (state : StateFile) (changed : nat)
    : M (StateFile * nat) :=
  match repos with
  | [] => ret (state, changed)
  | repo :: rest =>
      let! (state', notified) := reconcile state repo in
      loop rest state' (if notified : bool then S changed else changed)
  end.

(** [repoList] as the main function builds it: the [--repo] values, then
    the entries of the config file when one is given. *)
Definition repoList (configRepos : list JSON.value) : list JSON.value :=
  (map JSON.Str (default [] (arg_repo args)) ++ configRepos)%list.

(** The body of the asynchronous main function, after the environment
    was validated. *)
Definition loadConfigRepos : M (list JSON.value) :=
  if Str.truthy (arg_config_file args)
  then loadReposFromConfig (default "" (arg_config_file args))
  else ret [].

Definition main : M Exit :=
  let! configRepos := loadConfigRepos in
  match parseRepos (repoList configRepos) with
  | inl e => throw e
  | inr repos =>
      let stateFile := default DEFAULT_STATE (arg_state_file args) in
      let! loaded := readState stateFile in
      match loaded with
      | None => ret IllTypedState
      | Some state =>
          let! (state', changed) := loop repos state 0%nat in
          let! _ := writeState stateFile state' in
          let! _ := console (LogDone changed) in
          ret (Finished changed)
      end
  end.

(** The whole script: the two early exits, then [main]. *)
Definition cli : M Exit :=
  if arg_help args then ret ExitHelp
  else if Nat.eqb (length (default [] (arg_repo args))) 0
          && negb (Str.truthy (arg_config_file args))
  then ret ExitUsage
  else main.

End Program.

Arguments ret {W A}.
Arguments throw {W A}.
Arguments bind {W A B}.
Arguments try_catch {W A}.

(** ** A scripted world

    A concrete collaborator set to run the program on: the HTTP client
    answers with the next response of a script, each transport with the
    next outcome of its own script (success when the script is over), and
    the clock counts the readings taken. *)

Module Scripted.

Record World : Type := mkWorld {
  responses : list (Result Response);
  resend_outcomes : list (Result (option string));
  smtp_outcomes : list (Result unit);
  ticks : Z;
}.

Definition http (req : Request) (w : World) : Result Response * World :=
  match responses w with
  | r :: rs =>
      (r, mkWorld rs (resend_outcomes w) (smtp_outcomes w) (ticks w))
  | [] => (inl (Error "Unable to connect"), w)
  end.

Definition resend (input : MailInput) (w : World)
    : Result (option string) * World :=
  match resend_outcomes w with
  | r :: rs => (r, mkWorld (responses w) rs (smtp_outcomes w) (ticks w))
  | [] => (inr None, w)
  end.

Definition smtp (env : Env) (msg : SmtpMessage) (w : World)
    : Result unit * World :=
  match smtp_outcomes w with
  | r :: rs => (r, mkWorld (responses w) (resend_outcomes w) rs (ticks w))
  | [] => (inr tt, w)
  end.

Definition clock (w : World) : string * World :=
  ("T" ++ Str.of_Z (ticks w),
   mkWorld (responses w) (resend_outcomes w) (smtp_outcomes w) (ticks w + 1)).

Definition render (repo : RepoKey) (release : Release.t) : Rendered :=
  let title := default (Release.tag_name release) (Release.name release) in
  mkRendered ("New release: " ++ repo ++ " " ++ title)
             ("<h2>" ++ repo ++ "</h2>")
             ("New release in " ++ repo ++ ": " ++ title).

Definition collab : Collab World :=
  mkCollab World http resend smtp clock render.

Definition release (id : Z) (tag : string) : Release.t :=
  Release.mk id tag None ("https://example.test/" ++ tag)
             "2024-01-01T00:00:00Z" None None.

Definition found (id : Z) (tag : string) (etag : option string)
    : Result Response :=
  inr (mkResponse 200 etag "" (inr (release id tag))).

Definition answered (status : Z) (body : string) : Result Response :=
  inr (mkResponse status None body (inl (Error "Unexpected token"))).

Definition env_resend : Env :=
  mkEnv None "dev@example.test" "bot@example.test" (Some "re_key")
        None None None None None.

Definition args_of (repos : list string) (dry force : bool) : Args :=
  mkArgs (Some repos) None None dry force false.

Definition start (rs : list (Result Response))
    (mail : list (Result (option string))) : Sys World :=
  mkSys (mkWorld rs mail [] 0) ∅ [].

Definition no_state : StateFile := mkStateFile ∅.

(** The state after [octo/demo] was notified of release 10, [v1.0.0]. *)
Definition tracked : StateFile :=
  mkStateFile
    {[ "octo/demo" :=
         mkRepoState (Some "e0") (Some 10) (Some "v1.0.0")
                     (Some "2024-01-01T00:00:00Z") (Some "T0") ]}.

Definition real_send : Args := args_of ["octo/demo"] false false.
Definition dry_run : Args := args_of ["octo/demo"] true false.

End Scripted.


(** ** Vocabulary of the statements *)

(** A non-empty segment: text without a slash. *)
Definition segment (s : string) : Prop :=
  s <> "" /\ Str.mem "/" s = false.

(** [input] is [owner/repo] or [owner/repo/...]. *)
Definition begins_with_two_segments (input owner repo : string) : Prop :=
  segment owner /\ segment repo /\
  (input = owner ++ "/" ++ repo \/
   exists tail, input = owner ++ "/" ++ repo ++ "/" ++ tail).

Definition is_notification (e : Event) : bool :=
  match e with
  | ESendEmail _ => true
  | EConsole (LogDryRun _ _ _) => true
  | _ => false
  end.

(** The events hold a notification: a call of [sendEmail], or the line a
    dry run prints in its place. *)
Definition notifies (evs : list Event) : bool := existsb is_notification evs.

(** The notified-* triple of a record. *)
Definition notified (r : RepoState)
    : option Z * option string * option string :=
  (lastReleaseId r, lastTag r, lastPublishedAt r).

(** The clock reading the next [new Date().toISOString()] gives. *)
Definition reading {W : Type} (X : Collab W) (sys : Sys W) : string :=
  fst (clock_now X (world sys)).

(** The system after [line] was printed and the clock was read. *)
Definition after {W : Type} (X : Collab W) (line : ConsoleLine)
    (sys : Sys W) : Sys W :=
  mkSys (snd (clock_now X (world sys))) (files sys)
        (trace sys ++ [EConsole line]).

(** The mail one cycle sends for [release]. *)
Definition mail_for {W : Type} (X : Collab W) (env : Env) (repo : RepoKey)
    (release : Release.t) : MailInput :=
  let mail := renderEmail X repo release in
  mkMailInput (listifyTo (MAIL_TO env)) (MAIL_FROM env) (r_subject mail)
              (r_html mail) (Some (r_text mail)).

(** The record the notified branch stores. *)
Definition notified_record (release : Release.t) (etag' : option string)
    (t : string) : RepoState :=
  {| etag := etag';
     lastReleaseId := Some (Release.id release);
     lastTag := Some (Release.tag_name release);
     lastPublishedAt := Some (Release.published_at release);
     lastCheckedAt := Some t |}.

(** A cycle keeps the stored fields of [repo] and sets its checked
    timestamp to [t]; the records of the other repositories stay. *)
Definition only_checked_at (state state' : StateFile) (repo : RepoKey)
    (t : string) : Prop :=
  (exists new,
     repos state' !! repo = Some new
     /\ etag new = etag (repoStateOf state repo)
     /\ lastReleaseId new = lastReleaseId (repoStateOf state repo)
     /\ lastTag new = lastTag (repoStateOf state repo)
     /\ lastPublishedAt new = lastPublishedAt (repoStateOf state repo)
     /\ lastCheckedAt new = Some t)
  /\ forall other, other <> repo ->
       repos state' !! other = repos state !! other.

(** The reading of C2 without a condition on the send: a release that is
    judged new always ends with the replaced record. *)
Definition replaced_whenever_new {W : Type} (X : Collab W) (args : Args)
    (env : Env) (state : StateFile) (repo : RepoKey) (sys : Sys W) : Prop :=
  forall release etag' sys1,
    fetchLatestRelease X args repo (GITHUB_TOKEN env)
      (etag (repoStateOf state repo)) sys = (inr (ok release etag'), sys1) ->
    isNew args (repoStateOf state repo) release = true ->
    exists state' changed sys' t,
      reconcile X args env state repo sys = (inr (state', changed), sys')
      /\ repos state' !! repo = Some (notified_record release etag' t).

(** The try block of the cycle of [repo] throws [e], leaving the system in
    [sysE]: the fetch fails, or the release is new, the run is not a dry
    run and [sendEmail] fails. *)
Definition cycle_fails {W : Type} (X : Collab W) (args : Args) (env : Env)
    (state : StateFile) (repo : RepoKey) (sys : Sys W) (e : Exn)
    (sysE : Sys W) : Prop :=
  fetchLatestRelease X args repo (GITHUB_TOKEN env)
    (etag (repoStateOf state repo)) sys = (inl e, sysE)
  \/ exists release etag' sys1,
       fetchLatestRelease X args repo (GITHUB_TOKEN env)
         (etag (repoStateOf state repo)) sys
       = (inr (ok release etag'), sys1)
       /\ isNew args (repoStateOf state repo) release = true
       /\ arg_dry_run args = false
       /\ sendEmail X env (mail_for X env repo release) sys1
          = (inl e, sysE).

(** The addresses the program fetched, in order. *)
Definition fetched_urls (evs : list Event) : list string :=
  flat_map (fun e => match e with EFetch req => [url req] | _ => [] end) evs.

(** [changed] after one more cycle. *)
Definition count (changed : nat) (notified : bool) : nat :=
  if notified then S changed else changed.

(** The tokens of the text [JSON.stringify] writes for a value. *)
Fixpoint separated (parts : list (list JSON.token)) : list JSON.token :=
  match parts with
  | [] => []
  | [p] => p
  | p :: ps => (p ++ JSON.TComma :: separated ps)%list
  end.

Fixpoint tokens_of (v : JSON.value) : list JSON.token :=
  match v with
  | JSON.Null => [JSON.TNull]
  | JSON.Bool true => [JSON.TTrue]
  | JSON.Bool false => [JSON.TFalse]
  | JSON.Num n => [JSON.TNum n]
  | JSON.Float l => [JSON.TFloat l]
  | JSON.Str s => [JSON.TStr s]
  | JSON.Arr items =>
      (JSON.TLBrack :: separated (map tokens_of items) ++ [JSON.TRBrack])%list
  | JSON.Obj members =>
      (JSON.TLBrace
       :: separated (map (fun m => JSON.TStr (fst m) :: JSON.TColon
                                   :: tokens_of (snd m)) members)
       ++ [JSON.TRBrace])%list
  end.

Fixpoint distinct (keys : list string) : bool :=
  match keys with
  | [] => true
  | k :: rest => negb (existsb (String.eqb k) rest) && distinct rest
  end.

(** Values as a JavaScript object of strings and integers gives them: no
    fractional literal, and no key twice in an object. *)
Fixpoint plain (v : JSON.value) : bool :=
  match v with
  | JSON.Float _ => false
  | JSON.Arr items => forallb plain items
  | JSON.Obj members =>
      distinct (map fst members) && forallb (fun m => plain (snd m)) members
  | _ => true
  end.

(** Text before which a number literal ends. *)
Definition delimited (rest : string) : Prop :=
  match rest with
  | EmptyString => True
  | String c _ =>
      JSON.is_digit c = false /\ JSON.is_exp c = false
      /\ Ascii.eqb c "." = false
  end.

(** What [parse_value] is to do on the tokens of [v]: read the value and
    leave the tokens that follow, whenever the fuel covers its tokens. *)
Definition reads_back (v : JSON.value) : Prop :=
  forall fuel rest,
    (length (tokens_of v) <= fuel)%nat ->
    JSON.parse_value fuel (tokens_of v ++ rest)%list = Some (v, rest).

(** The separator between the entries of an array or an object. *)
Definition comma_sep (depth : nat) : string :=
  "," ++ JSON.LF ++ JSON.indent depth.

Fixpoint digits_only (s : string) : bool :=
  match s with
  | EmptyString => true
  | String c s' => JSON.is_digit c && digits_only s'
  end.

(** ** HTML escaping *)

(** The entity the [map] of [escapeHtml] holds for the five characters of
    its character class (ampersand, less-than, greater-than, double quote
    and apostrophe), and [None] for any other character. *)
Definition escapeHtml_entity (char : ascii) : option string :=
  if Ascii.eqb char "&" then Some "&amp;"
  else if Ascii.eqb char "<" then Some "&lt;"
  else if Ascii.eqb char ">" then Some "&gt;"
  else if Ascii.eqb char JSON.dquote then Some "&quot;"
  else if Ascii.eqb char "'" then Some "&#39;"
  else None.

(** [value.replace(class, (char) => map[char]!)], every occurrence. *)
Fixpoint escapeHtml (value : string) : string :=
  match value with
  | EmptyString => EmptyString
  | String char rest =>
      match escapeHtml_entity char with
      | Some entity => entity ++ escapeHtml rest
      | None => String char (escapeHtml rest)
      end
  end.

(** ** More vocabulary *)

(** [headers[name]] on the headers of a request. *)
Fixpoint header (name : string) (headers : list (string * string))
    : option string :=
  match headers with
  | [] => None
  | (k, v) :: rest => if String.eqb k name then Some v else header name rest
  end.

(** The requests among the events, in order. *)
Definition requests (evs : list Event) : list Request :=
  flat_map (fun e => match e with EFetch req => [req] | _ => [] end) evs.

(** How many of the events satisfy [p]. *)
Fixpoint how_many (p : Event -> bool) (evs : list Event) : nat :=
  match evs with
  | [] => O
  | e :: rest => if p e then S (how_many p rest) else how_many p rest
  end.

(** How many times [sendEmail] was called. *)
Definition sends : list Event -> nat :=
  how_many (fun e => match e with ESendEmail _ => true | _ => false end).

(** How many lines were printed, the final summary apart. *)
Definition lines : list Event -> nat :=
  how_many (fun e => match e with
                     | EConsole (LogDone _) => false
                     | EConsole _ => true
                     | _ => false
                     end).

(** How many of the lines say that an email was sent. *)
Definition sent_lines : list Event -> nat :=
  how_many (fun e => match e with
                     | EConsole (LogSent _ _) => true
                     | _ => false
                     end).

(** How many of the lines say that an email would be sent. *)
Definition dry_lines : list Event -> nat :=
  how_many (fun e => match e with
                     | EConsole (LogDryRun _ _ _) => true
                     | _ => false
                     end).

(** No character of [s] satisfies [p]. *)
Fixpoint none_of (p : ascii -> bool) (s : string) : bool :=
  match s with
  | EmptyString => true
  | String c r => negb (p c) && none_of p r
  end.

(** The characters [escapeHtml] replaces, the ampersand apart. *)
Definition is_markup (c : ascii) : bool :=
  Ascii.eqb c "<" || Ascii.eqb c ">" || Ascii.eqb c JSON.dquote
  || Ascii.eqb c "'".

(** * Properties *)

(** ** [parseRepo] *)

Lemma split_nonempty sep s : Str.split sep s <> [].
Proof.
  destruct s as [|c s]; simpl; [discriminate|].
  destruct (Ascii.eqb c sep); [discriminate|].
  destruct (Str.split sep s); discriminate.
Qed.

Lemma split_no_sep sep s :
  Str.mem sep s = false -> Str.split sep s = [s].
Proof.
  induction s as [|c s IH]; simpl; [reflexivity|].
  destruct (Ascii.eqb c sep); simpl; [discriminate|].
  intros H. rewrite (IH H). reflexivity.
Qed.

Lemma split_at_sep sep a b :
  Str.mem sep a = false ->
  Str.split sep (a ++ String sep b) = a :: Str.split sep b.
Proof.
  induction a as [|c a IH]; simpl.
  - rewrite Ascii.eqb_refl. reflexivity.
  - destruct (Ascii.eqb c sep); simpl; [discriminate|].
    intros H. rewrite (IH H). reflexivity.
Qed.

(** The first segment has no separator, and the text is that segment alone
    or that segment, a separator and the text the other segments come
    from. *)
Lemma split_inv sep s seg segs :
  Str.split sep s = seg :: segs ->
  Str.mem sep seg = false /\
  (segs = [] /\ s = seg \/
   exists s', s = seg ++ String sep s' /\ Str.split sep s' = segs).
Proof.
  revert seg segs. induction s as [|c s IH]; simpl; intros seg segs.
  - intros [= <- <-]. split; [reflexivity|]. left. split; reflexivity.
  - destruct (Ascii.eqb_spec c sep) as [->|Hc].
    + intros [= <- <-]. split; [reflexivity|]. right. exists s.
      split; reflexivity.
    + destruct (Str.split sep s) as [|seg0 segs0] eqn:Hs.
      * intros [= <- <-]. exfalso. exact (split_nonempty _ _ Hs).
      * intros [= <- <-]. destruct (IH _ _ eq_refl) as [Hm Hd].
        split.
        { simpl. apply Ascii.eqb_neq in Hc. rewrite Hc. exact Hm. }
        destruct Hd as [[-> ->]|(s' & -> & Hs')].
        -- left. split; reflexivity.
        -- right. exists s'. split; [reflexivity|exact Hs'].
Qed.

Lemma is_empty_false s : Str.is_empty s = false <-> s <> "".
Proof. destruct s; simpl; split; congruence. Qed.


Lemma parseRepo_accepts input owner repo :
  begins_with_two_segments input owner repo ->
  parseRepo input = inr (owner ++ "/" ++ repo).
Proof.
  intros ([Ho Hom] & [Hr Hrm] & Hin). unfold parseRepo.
  assert (Hs : exists rest, Str.split "/" input = owner :: repo :: rest).
  { destruct Hin as [->|[tail ->]].
    - exists []. change (owner ++ "/" ++ repo) with (owner ++ String "/" repo).
      rewrite split_at_sep by exact Hom. now rewrite split_no_sep.
    - exists (Str.split "/" tail).
      change (owner ++ "/" ++ repo ++ "/" ++ tail)
        with (owner ++ String "/" (repo ++ String "/" tail)).
      rewrite split_at_sep by exact Hom. now rewrite split_at_sep. }
  destruct Hs as [rest ->]. simpl.
  apply is_empty_false in Ho, Hr. rewrite Ho, Hr. reflexivity.
Qed.

Lemma parseRepo_inr_inv input key :
  parseRepo input = inr key ->
  exists owner repo,
    key = owner ++ "/" ++ repo /\ begins_with_two_segments input owner repo.
Proof.
  unfold parseRepo.
  destruct (Str.split "/" input) as [|owner [|repo rest]] eqn:Hs; simpl.
  - discriminate.
  - rewrite orb_true_r. discriminate.
  - destruct (Str.is_empty owner) eqn:Ho; simpl; [discriminate|].
    destruct (Str.is_empty repo) eqn:Hr; simpl; [discriminate|].
    intros [= <-]. exists owner, repo. split; [reflexivity|].
    apply is_empty_false in Ho, Hr.
    destruct (split_inv _ _ _ _ Hs) as [Hom [[? _]|(s1 & -> & Hs1)]];
      [discriminate|].
    destruct (split_inv _ _ _ _ Hs1) as [Hrm Hd].
    split; [now split|]. split; [now split|].
    destruct Hd as [[_ ->]|(s2 & -> & _)].
    + left. reflexivity.
    + right. exists s2. reflexivity.
Qed.

(** C10. [parseRepo] accepts an input exactly when it starts with two
    non-empty slash-free segments separated by a slash, and rejects it
    (with the "Invalid repo" error) in every other case, that is, when the
    first or the second segment is empty or missing.  An accepted input
    yields the first two segments joined by a slash; whatever follows a
    second slash is dropped. *)
Theorem parseRepo_spec (input : string) :
  (forall key,
     parseRepo input = inr key <->
     exists owner repo,
       key = owner ++ "/" ++ repo /\
       begins_with_two_segments input owner repo) /\
  (parseRepo input
     = inl (Error ("Invalid repo: " ++ input ++ ". Expected owner/name."))
   <-> ~ exists owner repo, begins_with_two_segments input owner repo) /\
  (forall owner repo tail,
     segment owner -> segment repo ->
     input = owner ++ "/" ++ repo ++ "/" ++ tail ->
     parseRepo input = inr (owner ++ "/" ++ repo)).
Proof.
  split; [|split].
  - intros key. split.
    + apply parseRepo_inr_inv.
    + intros (owner & repo & -> & H). now apply parseRepo_accepts.
  - split.
    + intros Hrej (owner & repo & H).
      apply parseRepo_accepts in H. congruence.
    + intros Hno. destruct (parseRepo input) as [e|key] eqn:Hp.
      * clear Hno. revert Hp. unfold parseRepo.
        destruct (_ || _); [intros [= <-]; reflexivity|discriminate].
      * exfalso. apply Hno.
        destruct (parseRepo_inr_inv _ _ Hp) as (owner & repo & _ & H).
        now exists owner, repo.
  - intros owner repo tail Ho Hr ->. apply parseRepo_accepts.
    split; [exact Ho|]. split; [exact Hr|]. right. now exists tail.
Qed.

Lemma parseRepo_spec_witness :
  parseRepo "a/b/c" = inr "a/b" /\
  parseRepo "a//c"
    = inl (Error ("Invalid repo: " ++ "a//c" ++ ". Expected owner/name.")).
Proof.
  split.
  - apply (proj2 (proj2 (parseRepo_spec "a/b/c")) "a" "b" "c").
    + split; [discriminate|reflexivity].
    + split; [discriminate|reflexivity].
    + reflexivity.
  - apply (proj1 (proj2 (parseRepo_spec "a//c"))).
    intros (owner & repo & H).
    apply parseRepo_accepts in H. vm_compute in H. discriminate.
Defined.

(** ** The state document: lexical level *)

Section Lexing.

Import JSON.

Local Open Scope string_scope.

Lemma append_cons x (a b : string) : String x a ++ b = String x (a ++ b).
Proof. reflexivity. Qed.

Lemma append_nil_l (b : string) : "" ++ b = b.
Proof. reflexivity. Qed.

Lemma append_assoc (a b c : string) : (a ++ b) ++ c = a ++ (b ++ c).
Proof.
  induction a as [|x a IH]; [reflexivity|].
  now rewrite !append_cons, IH.
Qed.

Lemma append_nil_r (a : string) : a ++ "" = a.
Proof.
  induction a as [|x a IH]; [reflexivity|]. now rewrite append_cons, IH.
Qed.

Lemma lex_cons st c s :
  lex st (String c s)
  = match step st c with
    | Some (st', out) => option_map (app out) (lex st' s)
    | None => None
    end.
Proof.
  simpl. destruct (step st c) as [[st' out]|]; [|reflexivity].
  now destruct (lex st' s).
Qed.

Lemma lex_cons_step st c s st' out :
  step st c = Some (st', out) ->
  lex st (String c s) = option_map (app out) (lex st' s).
Proof. intros H. now rewrite lex_cons, H. Qed.

(** Read the characters at the head of the text, one step each. *)
Ltac lex_chars :=
  repeat (rewrite ?append_cons, ?append_nil_l;
          erewrite lex_cons_step by reflexivity).

Lemma option_map_nil (r : option (list token)) : option_map (app []) r = r.
Proof. now destruct r. Qed.

Lemma option_map_app (a b : list token) (r : option (list token)) :
  option_map (app a) (option_map (app b) r) = option_map (app (a ++ b)%list) r.
Proof. destruct r; simpl; [now rewrite List.app_assoc|reflexivity]. Qed.

Lemma lex_space s : lex LTop (String " " s) = lex LTop s.
Proof. rewrite lex_cons. simpl. apply option_map_nil. Qed.

Lemma lex_indent depth s : lex LTop (indent depth ++ s) = lex LTop s.
Proof.
  induction depth as [|d IH]; [reflexivity|].
  change (indent (S d) ++ s) with (String " " (String " " (indent d ++ s))).
  now rewrite !lex_space.
Qed.

Lemma lex_LF s : lex LTop (LF ++ s) = lex LTop s.
Proof.
  change (LF ++ s) with (String (ascii_of_N 10) s).
  rewrite lex_cons. simpl. apply option_map_nil.
Qed.

(** One character of a string literal, as written by [escape_char], is
    read back as that character. *)
Lemma lex_escape_char c acc rest :
  lex (LStr acc) (escape_char c ++ rest) = lex (LStr (snoc acc c)) rest.
Proof.
  assert (Hc : forall n, Str.code c = n -> c = ascii_of_N n).
  { intros n <-. unfold Str.code. now rewrite ascii_N_embedding. }
  assert (Hne : forall d, Str.code c <> Str.code d -> Ascii.eqb c d = false).
  { intros d Hd. apply Ascii.eqb_neq. congruence. }
  unfold escape_char.
  destruct (N.eqb_spec (Str.code c) 34) as [E|N34];
    [rewrite (Hc _ E); lex_chars; now rewrite !option_map_nil|].
  destruct (N.eqb_spec (Str.code c) 92) as [E|N92];
    [rewrite (Hc _ E); lex_chars; now rewrite !option_map_nil|].
  destruct (N.eqb_spec (Str.code c) 8) as [E|_];
    [rewrite (Hc _ E); lex_chars; now rewrite !option_map_nil|].
  destruct (N.eqb_spec (Str.code c) 12) as [E|_];
    [rewrite (Hc _ E); lex_chars; now rewrite !option_map_nil|].
  destruct (N.eqb_spec (Str.code c) 10) as [E|_];
    [rewrite (Hc _ E); lex_chars; now rewrite !option_map_nil|].
  destruct (N.eqb_spec (Str.code c) 13) as [E|_];
    [rewrite (Hc _ E); lex_chars; now rewrite !option_map_nil|].
  destruct (N.eqb_spec (Str.code c) 9) as [E|_];
    [rewrite (Hc _ E); lex_chars; now rewrite !option_map_nil|].
  destruct (Str.code c <? 32)%N eqn:Hlt.
  - clear Hc Hne N34 N92.
    destruct c as [[] [] [] [] [] [] [] []];
      try (vm_compute in Hlt; discriminate Hlt);
      lex_chars; now rewrite !option_map_nil.
  - rewrite append_cons, lex_cons. unfold step.
    rewrite (Hne dquote N34), (Hne backslash N92), Hlt. simpl.
    apply option_map_nil.
Qed.

Lemma lex_escape s acc rest :
  lex (LStr acc) (escape s ++ String dquote rest)
  = option_map (app [TStr (acc ++ s)]) (lex LTop rest).
Proof.
  revert acc. induction s as [|c s IH]; intros acc.
  - simpl escape. rewrite append_nil_l, append_nil_r.
    now erewrite lex_cons_step by reflexivity.
  - simpl escape. rewrite append_assoc, lex_escape_char, IH.
    unfold snoc. now rewrite append_assoc.
Qed.

Lemma lex_quote s rest :
  lex LTop (quote s ++ rest) = option_map (app [TStr s]) (lex LTop rest).
Proof.
  unfold quote. rewrite append_cons.
  erewrite lex_cons_step by reflexivity.
  rewrite append_assoc, append_cons, append_nil_l, lex_escape.
  now rewrite option_map_nil.
Qed.

Lemma lex_digits ds raw rest :
  digits_only ds = true ->
  lex (LNum raw PInt) (ds ++ rest) = lex (LNum (raw ++ ds) PInt) rest.
Proof.
  revert raw. induction ds as [|c ds IH]; intros raw.
  - intros _. now rewrite append_nil_l, append_nil_r.
  - intros H. simpl in H. apply andb_true_iff in H as [Hc Hds].
    rewrite append_cons, lex_cons. unfold step. rewrite Hc.
    simpl option_map. rewrite option_map_nil, (IH _ Hds).
    unfold snoc. now rewrite append_assoc.
Qed.

Lemma digits_only_uint d : digits_only (NilEmpty.string_of_uint d) = true.
Proof. induction d; simpl; [reflexivity|exact IHd ..]. Qed.

(** The decimal digits of a positive number start with a digit other
    than zero. *)
Lemma to_uint_head p :
  exists c ds,
    NilEmpty.string_of_uint (Pos.to_uint p) = String c ds
    /\ digits_only ds = true
    /\ is_digit c = true /\ Ascii.eqb c "0" = false.
Proof.
  assert (Hn : Decimal.unorm (Pos.to_uint p) = Pos.to_uint p).
  { rewrite <- (DecimalPos.Unsigned.to_of (Pos.to_uint p)).
    now rewrite DecimalPos.Unsigned.of_to. }
  pose proof (DecimalPos.Unsigned.to_uint_nonzero p) as Hz.
  destruct (Pos.to_uint p) as [|d|d|d|d|d|d|d|d|d|d] eqn:Hp;
    try (do 2 eexists; split; [reflexivity|];
         split; [apply digits_only_uint|split; reflexivity]).
  - discriminate Hn.
  - exfalso. rewrite DecimalFacts.unorm_D0 in Hn. unfold Decimal.unorm in Hn.
    destruct (Decimal.nzhead d) eqn:Hd; try discriminate Hn.
    + injection Hn as <-. now apply Hz.
    + exact (DecimalFacts.nzhead_nonzero _ _ Hd).
Qed.

Lemma num_token_of_Z z phase :
  phase = PInt \/ phase = PZero ->
  num_token (Str.of_Z z) phase = Some (TNum z).
Proof.
  intros Hph.
  assert (H : NilZero.int_of_string (Str.of_Z z) = Some (Z.to_int z)).
  { unfold Str.of_Z. apply NilZero.isi; destruct z; simpl; try discriminate;
      intros [= H]; exact (DecimalPos.Unsigned.to_uint_nonnil _ H). }
  destruct Hph as [-> | ->]; simpl; now rewrite H, DecimalZ.of_to.
Qed.

Lemma lex_end_number raw phase t rest :
  num_token raw phase = Some t ->
  phase = PInt \/ phase = PZero ->
  delimited rest ->
  lex (LNum raw phase) rest = option_map (app [t]) (lex LTop rest).
Proof.
  intros Ht Hph Hd. destruct rest as [|c rest].
  - simpl. now rewrite Ht.
  - destruct Hd as (Hdig & Hexp & Hdot).
    rewrite !lex_cons.
    assert (Hs : step (LNum raw phase) c = end_number raw phase c).
    { destruct Hph as [-> | ->]; simpl; now rewrite Hdig, Hexp, Hdot. }
    rewrite Hs. unfold end_number. rewrite Ht. simpl step.
    destruct (top_step c) as [[st out]|]; [|reflexivity].
    now rewrite option_map_app.
Qed.

Lemma lex_number z rest :
  delimited rest ->
  lex LTop (Str.of_Z z ++ rest) = option_map (app [TNum z]) (lex LTop rest).
Proof.
  intros Hd.
  pose proof (num_token_of_Z z) as Hz.
  destruct z as [|p|p].
  - change (Str.of_Z 0) with "0" in *. lex_chars.
    rewrite option_map_nil.
    apply lex_end_number; [apply Hz|idtac|exact Hd]; now right.
  - destruct (to_uint_head p) as (c & ds & Hs & Hds & Hc & Hc0).
    assert (Ht : Str.of_Z (Z.pos p) = String c ds).
    { unfold Str.of_Z. simpl. rewrite <- Hs.
      now destruct (Pos.to_uint p). }
    rewrite Ht in *. rewrite append_cons, lex_cons.
    assert (Hstep : step LTop c = Some (LNum (String c "") PInt, [])).
    { destruct c as [[] [] [] [] [] [] [] []];
        try discriminate Hc; try discriminate Hc0; reflexivity. }
    rewrite Hstep, option_map_nil, (lex_digits _ _ _ Hds).
    rewrite append_cons, append_nil_l.
    apply lex_end_number; [apply Hz|idtac|exact Hd]; now left.
  - destruct (to_uint_head p) as (c & ds & Hs & Hds & Hc & Hc0).
    assert (Ht : Str.of_Z (Z.neg p) = String "-" (String c ds)).
    { unfold Str.of_Z. simpl. rewrite <- Hs.
      now destruct (Pos.to_uint p). }
    rewrite Ht in *. rewrite append_cons.
    erewrite lex_cons_step by reflexivity.
    rewrite option_map_nil, append_cons, lex_cons. unfold step.
    rewrite Hc0, Hc. simpl option_map.
    rewrite option_map_nil, (lex_digits _ _ _ Hds).
    unfold snoc. rewrite !append_cons, !append_nil_l.
    apply lex_end_number; [apply Hz|idtac|exact Hd]; now left.
Qed.


Lemma value_induction (P : value -> Prop) :
  P Null ->
  (forall b, P (Bool b)) ->
  (forall n, P (Num n)) ->
  (forall l, P (Float l)) ->
  (forall s, P (Str s)) ->
  (forall items, Forall P items -> P (Arr items)) ->
  (forall members, Forall (fun m => P (snd m)) members -> P (Obj members)) ->
  forall v, P v.
Proof.
  intros HN HB HZ HF HS HA HO. fix IH 1.
  intros [ |b|n|l|s|items|members].
  - exact HN.
  - apply HB.
  - apply HZ.
  - apply HF.
  - apply HS.
  - apply HA. induction items as [|x items IHi]; constructor.
    + apply IH.
    + exact IHi.
  - apply HO. induction members as [|m members IHm]; constructor.
    + apply IH.
    + exact IHm.
Qed.

Lemma delimited_comma_sep depth s : delimited (comma_sep depth ++ s).
Proof. repeat split. Qed.

Lemma delimited_LF s : delimited (LF ++ s).
Proof. repeat split. Qed.

Lemma lex_comma_sep depth s :
  lex LTop (comma_sep depth ++ s)
  = option_map (app [TComma]) (lex LTop s).
Proof.
  unfold comma_sep. rewrite !append_assoc, append_cons, append_nil_l.
  erewrite lex_cons_step by reflexivity.
  now rewrite lex_LF, lex_indent.
Qed.

(** A list of texts written one per line with commas between them reads
    as the tokens of the texts with commas between them. *)
Lemma lex_sep_by {A : Type} (f : A -> string) (g : A -> list token)
    depth (l : list A) rest :
  l <> [] ->
  Forall (fun x => forall rest', delimited rest' ->
            lex LTop (f x ++ rest')
            = option_map (app (g x)) (lex LTop rest')) l ->
  lex LTop (sep_by (comma_sep depth) (map f l) ++ LF ++ rest)
  = option_map (app (separated (map g l))) (lex LTop rest).
Proof.
  intros Hne Hall. induction Hall as [|x l Hx Hall IH]; [contradiction|].
  destruct l as [|y l].
  - simpl. rewrite (Hx _ (delimited_LF _)). now rewrite lex_LF.
  - change (sep_by (comma_sep depth) (map f (x :: y :: l)))
      with (f x ++ comma_sep depth
            ++ sep_by (comma_sep depth) (map f (y :: l))).
    change (separated (map g (x :: y :: l)))
      with (g x ++ TComma :: separated (map g (y :: l)))%list.
    rewrite !append_assoc.
    rewrite (Hx _ (delimited_comma_sep _ _)).
    rewrite lex_comma_sep, IH by discriminate.
    rewrite !option_map_app, <- List.app_assoc. reflexivity.
Qed.

Lemma serialize_arr depth x xs :
  serialize depth (Arr (x :: xs))
  = "[" ++ LF ++ indent (S depth)
    ++ sep_by (comma_sep (S depth)) (map (serialize (S depth)) (x :: xs))
    ++ LF ++ indent depth ++ "]".
Proof. reflexivity. Qed.

Lemma serialize_obj depth m ms :
  serialize depth (Obj (m :: ms))
  = "{" ++ LF ++ indent (S depth)
    ++ sep_by (comma_sep (S depth))
         (map (fun m => quote (fst m) ++ ": " ++ serialize (S depth) (snd m))
              (m :: ms))
    ++ LF ++ indent depth ++ "}".
Proof. reflexivity. Qed.

Lemma tokens_of_arr items :
  tokens_of (Arr items)
  = (TLBrack :: separated (map tokens_of items) ++ [TRBrack])%list.
Proof. reflexivity. Qed.

Lemma tokens_of_obj members :
  tokens_of (Obj members)
  = (TLBrace
     :: separated (map (fun m => TStr (fst m) :: TColon :: tokens_of (snd m))
                       members)
     ++ [TRBrace])%list.
Proof. reflexivity. Qed.

(** The text of a plain value reads as its tokens. *)
Lemma lex_serialize v :
  forall depth rest,
    plain v = true -> delimited rest ->
    lex LTop (serialize depth v ++ rest)
    = option_map (app (tokens_of v)) (lex LTop rest).
Proof.
  induction v as [ |b|n|l|s|items IH|members IH] using value_induction;
    intros depth rest Hp Hd.
  - simpl serialize. lex_chars. now rewrite !option_map_nil.
  - destruct b; simpl serialize; lex_chars; now rewrite !option_map_nil.
  - simpl serialize. now apply lex_number.
  - discriminate Hp.
  - simpl serialize. apply lex_quote.
  - destruct items as [|x xs].
    + simpl serialize. lex_chars. now rewrite !option_map_app.
    + rewrite serialize_arr, tokens_of_arr, !append_assoc.
      rewrite append_cons, append_nil_l.
      erewrite lex_cons_step by reflexivity.
      rewrite lex_LF, lex_indent.
      rewrite (lex_sep_by (serialize (S depth)) tokens_of).
      * rewrite lex_indent. rewrite append_cons, append_nil_l.
        erewrite lex_cons_step by reflexivity.
        rewrite !option_map_app. reflexivity.
      * discriminate.
      * change (forallb plain (x :: xs) = true) in Hp.
        rewrite forallb_forall in Hp.
        rewrite Forall_forall in IH |- *. intros y Hy rest' Hr.
        apply IH; [exact Hy| |exact Hr].
        apply Hp. now apply list_elem_of_In.
  - destruct members as [|m ms].
    + simpl serialize. lex_chars. now rewrite !option_map_app.
    + rewrite serialize_obj, tokens_of_obj, !append_assoc.
      rewrite append_cons, append_nil_l.
      erewrite lex_cons_step by reflexivity.
      rewrite lex_LF, lex_indent.
      rewrite (lex_sep_by
                 (fun m => quote (fst m) ++ ": " ++ serialize (S depth) (snd m))
                 (fun m => TStr (fst m) :: TColon :: tokens_of (snd m))).
      * rewrite lex_indent. rewrite append_cons, append_nil_l.
        erewrite lex_cons_step by reflexivity.
        rewrite !option_map_app. reflexivity.
      * discriminate.
      * change (distinct (map fst (m :: ms))
                && forallb (fun m => plain (snd m)) (m :: ms) = true) in Hp.
        apply andb_true_iff in Hp as [_ Hp].
        rewrite forallb_forall in Hp.
        rewrite Forall_forall in IH |- *. intros y Hy rest' Hr.
        rewrite !append_assoc, lex_quote.
        rewrite !append_cons, append_nil_l.
        erewrite lex_cons_step by reflexivity.
        rewrite lex_space.
        rewrite (IH y Hy (S depth) rest'); [|now apply Hp, list_elem_of_In|exact Hr].
        rewrite !option_map_app. reflexivity.
Qed.


End Lexing.

(** ** The state document: syntactic level *)

Section Parsing.

Import JSON.

Local Open Scope list_scope.
Local Open Scope nat_scope.

Lemma tokens_of_head v :
  exists t ts, tokens_of v = t :: ts /\ t <> TRBrack /\ t <> TRBrace.
Proof.
  destruct v as [ |[]|n|l|s|items|members]; simpl;
    do 2 eexists; (split; [reflexivity|split; discriminate]).
Qed.

Lemma tokens_of_length v : 1 <= length (tokens_of v).
Proof.
  destruct (tokens_of_head v) as (t & ts & -> & _). simpl. lia.
Qed.

Lemma parse_value_arr fuel t ts :
  t <> TRBrack ->
  parse_value (S fuel) (TLBrack :: t :: ts) = parse_items fuel (t :: ts) [].
Proof. intros H. destruct t; try reflexivity. contradiction. Qed.

Lemma parse_value_obj fuel t ts :
  t <> TRBrace ->
  parse_value (S fuel) (TLBrace :: t :: ts) = parse_members fuel (t :: ts) [].
Proof. intros H. destruct t; try reflexivity. contradiction. Qed.

Lemma parse_items_S fuel ts acc :
  parse_items (S fuel) ts acc
  = match parse_value fuel ts with
    | Some (v, TComma :: r) => parse_items fuel r (acc ++ [v])
    | Some (v, TRBrack :: r) => Some (Arr (acc ++ [v]), r)
    | _ => None
    end.
Proof. reflexivity. Qed.

Lemma parse_members_S fuel key ts acc :
  parse_members (S fuel) (TStr key :: TColon :: ts) acc
  = match parse_value fuel ts with
    | Some (v, TComma :: r) => parse_members fuel r (obj_set key v acc)
    | Some (v, TRBrace :: r) => Some (Obj (obj_set key v acc), r)
    | _ => None
    end.
Proof. reflexivity. Qed.

Lemma obj_set_fresh key v acc :
  Forall (fun k => String.eqb k key = false) (map fst acc) ->
  obj_set key v acc = acc ++ [(key, v)].
Proof.
  induction acc as [|[k w] acc IH]; simpl; [reflexivity|].
  intros H. apply Forall_cons in H as [Hk H].
  rewrite Hk. now rewrite IH.
Qed.

Lemma distinct_middle (a : list string) k b :
  distinct (a ++ k :: b) = true ->
  Forall (fun k0 => String.eqb k0 k = false) a.
Proof.
  induction a as [|x a IH]; simpl; [constructor|].
  rewrite andb_true_iff, negb_true_iff. intros [Hx Hd].
  constructor; [|now apply IH].
  rewrite existsb_app in Hx. apply orb_false_iff in Hx as [_ Hx].
  simpl in Hx. now apply orb_false_iff in Hx as [Hx _].
Qed.

Lemma separated_cons {A : Type} (g : A -> list token) x y l :
  separated (map g (x :: y :: l))
  = g x ++ TComma :: separated (map g (y :: l)).
Proof. reflexivity. Qed.

Lemma parse_items_tokens items :
  items <> [] ->
  Forall reads_back items ->
  forall acc fuel rest,
    length (separated (map tokens_of items)) < fuel ->
    parse_items fuel (separated (map tokens_of items) ++ TRBrack :: rest) acc
    = Some (Arr (acc ++ items), rest).
Proof.
  intros Hne Hall. induction Hall as [|x l Hx Hall IH]; [contradiction|].
  intros acc fuel rest Hf. destruct fuel as [|fuel]; [lia|].
  rewrite parse_items_S. destruct l as [|y l].
  - simpl in Hf |- *. rewrite Hx by lia. reflexivity.
  - rewrite separated_cons in Hf |- *.
    rewrite length_app in Hf. cbn [length] in Hf.
    rewrite <- List.app_assoc, <- app_comm_cons.
    rewrite Hx by lia. rewrite IH by (discriminate || lia).
    now rewrite <- List.app_assoc.
Qed.

Lemma parse_members_tokens members :
  members <> [] ->
  Forall (fun m => reads_back (snd m)) members ->
  forall acc fuel rest,
    distinct (map fst (acc ++ members)) = true ->
    length (separated (map (fun m => TStr (fst m) :: TColon
                                     :: tokens_of (snd m)) members)) < fuel ->
    parse_members fuel
      (separated (map (fun m => TStr (fst m) :: TColon :: tokens_of (snd m))
                      members) ++ TRBrace :: rest) acc
    = Some (Obj (acc ++ members), rest).
Proof.
  intros Hne Hall. induction Hall as [|[k v] l Hx Hall IH]; [contradiction|].
  intros acc fuel rest Hd Hf. destruct fuel as [|fuel]; [lia|].
  assert (Hfresh : obj_set k v acc = acc ++ [(k, v)]).
  { apply obj_set_fresh. rewrite map_app in Hd.
    exact (distinct_middle _ _ _ Hd). }
  simpl in Hx. destruct l as [|y l].
  - simpl in Hf |- *. rewrite Hx by lia. now rewrite Hfresh.
  - rewrite separated_cons in Hf |- *.
    rewrite length_app in Hf. cbn [length fst snd] in Hf.
    rewrite <- List.app_assoc, <- !app_comm_cons.
    rewrite parse_members_S. simpl fst. simpl snd.
    rewrite Hx by lia. rewrite Hfresh.
    rewrite IH; [now rewrite <- List.app_assoc|discriminate| |lia].
    now rewrite <- List.app_assoc.
Qed.

(** The tokens of a plain value parse to the value. *)
Lemma parse_value_tokens v : plain v = true -> reads_back v.
Proof.
  induction v as [ |b|n|l|s|items IH|members IH] using value_induction;
    intros Hp fuel rest Hf;
    (destruct fuel as [|fuel];
     [match type of Hf with
      | length (tokens_of ?w) <= _ => pose proof (tokens_of_length w); lia
      end|]).
  - reflexivity.
  - now destruct b.
  - reflexivity.
  - discriminate Hp.
  - reflexivity.
  - destruct items as [|x xs]; [reflexivity|].
    change (forallb plain (x :: xs) = true) in Hp.
    rewrite forallb_forall in Hp.
    assert (Hall : Forall reads_back (x :: xs)).
    { rewrite Forall_forall in IH |- *. intros y Hy.
      apply IH; [exact Hy|]. now apply Hp, list_elem_of_In. }
    rewrite tokens_of_arr in Hf |- *.
    cbn [length] in Hf. rewrite length_app in Hf. cbn [length] in Hf.
    rewrite <- app_comm_cons, <- List.app_assoc.
    destruct (tokens_of_head x) as (t & ts & Ht & Hb & _).
    assert (Hs : exists ts', separated (map tokens_of (x :: xs)) = t :: ts').
    { destruct xs; [simpl; rewrite Ht; now eexists|].
      rewrite separated_cons, Ht. now eexists. }
    destruct Hs as [ts' Hs]. rewrite Hs, <- app_comm_cons.
    rewrite (parse_value_arr _ _ _ Hb), app_comm_cons, <- Hs.
    apply (parse_items_tokens (x :: xs)); [discriminate|exact Hall|lia].
  - destruct members as [|m ms]; [reflexivity|].
    change (distinct (map fst (m :: ms))
            && forallb (fun m => plain (snd m)) (m :: ms) = true) in Hp.
    apply andb_true_iff in Hp as [Hd Hp].
    rewrite forallb_forall in Hp.
    assert (Hall : Forall (fun m => reads_back (snd m)) (m :: ms)).
    { rewrite Forall_forall in IH |- *. intros y Hy.
      apply IH; [exact Hy|]. now apply Hp, list_elem_of_In. }
    rewrite tokens_of_obj in Hf |- *.
    cbn [length] in Hf. rewrite length_app in Hf. cbn [length] in Hf.
    rewrite <- app_comm_cons, <- List.app_assoc.
    set (g := fun m : string * value =>
                TStr (fst m) :: TColon :: tokens_of (snd m)) in *.
    assert (Hs : exists ts', separated (map g (m :: ms)) = TStr (fst m) :: ts').
    { destruct ms; [simpl; now eexists|].
      rewrite separated_cons. now eexists. }
    destruct Hs as [ts' Hs]. rewrite Hs, <- app_comm_cons.
    rewrite parse_value_obj by discriminate. rewrite app_comm_cons, <- Hs.
    apply (parse_members_tokens (m :: ms) ltac:(discriminate) Hall []);
      [exact Hd|unfold g in Hf; lia].
Qed.

Lemma lex_only_LF : lex LTop LF = Some [].
Proof. reflexivity. Qed.

(** What [JSON.stringify] writes for a plain value, followed by a line
    feed, is read back by [JSON.parse] as the value. *)
Lemma parse_stringify v :
  plain v = true -> parse (stringify v +:+ LF) = Some v.
Proof.
  intros Hp. unfold parse, stringify.
  rewrite (lex_serialize v 0 LF Hp (delimited_LF "")).
  rewrite lex_only_LF. cbn [option_map].
  rewrite (parse_value_tokens v Hp) by (rewrite app_nil_r; lia).
  reflexivity.
Qed.

End Parsing.

(** ** The state store *)

Section StateStore.

Local Open Scope list_scope.

Lemma plain_RepoState r : plain (json_of_RepoState r) = true.
Proof. destruct r as [[e|] [i|] [t|] [p|] [c|]]; reflexivity. Qed.

Lemma as_RepoState_json r : as_RepoState (json_of_RepoState r) = Some r.
Proof. destruct r as [[e|] [i|] [t|] [p|] [c|]]; reflexivity. Qed.

Lemma distinct_NoDup (keys : list string) : NoDup keys -> distinct keys = true.
Proof.
  induction 1 as [|k keys Hk Hnd IH]; simpl; [reflexivity|].
  rewrite IH, andb_true_r, negb_true_iff.
  apply not_true_is_false. intros He.
  apply existsb_exists in He as (k' & Hin & Heq).
  apply String.eqb_eq in Heq. subst k'.
  apply Hk. now apply list_elem_of_In.
Qed.

Lemma as_repos_json (l : list (string * RepoState)) :
  as_repos (map (fun kr => (fst kr, json_of_RepoState (snd kr))) l) = Some l.
Proof.
  induction l as [|[k r] l IH]; [reflexivity|].
  cbn [map as_repos fst snd]. now rewrite as_RepoState_json, IH.
Qed.

Lemma plain_StateFile state : plain (json_of_StateFile state) = true.
Proof.
  unfold json_of_StateFile.
  set (l := map_to_list (repos state)).
  change (distinct
            (map fst (map (fun kr : string * RepoState =>
                             (fst kr, json_of_RepoState (snd kr))) l))
          && forallb (fun m => plain (snd m))
               (map (fun kr : string * RepoState =>
                       (fst kr, json_of_RepoState (snd kr))) l)
          && true = true).
  rewrite andb_true_r, andb_true_iff. split.
  - rewrite map_map. simpl. apply distinct_NoDup.
    apply (NoDup_fst_map_to_list (repos state)).
  - apply forallb_forall. intros m Hm.
    apply in_map_iff in Hm as (kr & <- & _). apply plain_RepoState.
Qed.

Lemma as_StateFile_json state :
  as_StateFile (json_of_StateFile state) = Some state.
Proof.
  unfold json_of_StateFile, as_StateFile.
  change (String.eqb "repos" "repos") with true. cbn iota.
  rewrite as_repos_json, list_to_map_to_list. now destruct state.
Qed.

Context {W : Type}.

(** A file that holds the document of a state reads back as that state. *)
Lemma readState_written (filePath : string) (state : StateFile)
    (sys : Sys W) :
  files sys !! filePath
  = Some (JSON.stringify (json_of_StateFile state) +:+ JSON.LF) ->
  readState filePath sys = (inr (Some state), sys).
Proof.
  intros Hf. unfold readState, try_catch, bind, readFile, ret. rewrite Hf.
  rewrite (parse_stringify _ (plain_StateFile state)).
  now rewrite as_StateFile_json.
Qed.

(** C7. Writing a State Collection with [writeState] and reading the
    written file back with [readState] gives the collection back: the same
    keys, and under every key a record with the same five fields. *)
Theorem state_round_trip (filePath : string) (state : StateFile)
    (sys : Sys W) :
  let written := snd (writeState filePath state sys) in
  fst (writeState filePath state sys) = inr tt
  /\ files written !! filePath
     = Some (JSON.stringify (json_of_StateFile state) +:+ JSON.LF)
  /\ readState filePath written = (inr (Some state), written)
  /\ forall loaded,
       fst (readState filePath written) = inr (Some loaded) ->
       forall repo, repos loaded !! repo = repos state !! repo.
Proof.
  intros written.
  assert (Hf : files written !! filePath
               = Some (JSON.stringify (json_of_StateFile state)
                       +:+ JSON.LF)).
  { unfold written, writeState, writeFile. simpl. apply lookup_insert_eq. }
  assert (Hr : readState filePath written = (inr (Some state), written))
    by exact (readState_written _ _ _ Hf).
  split; [reflexivity|]. split; [exact Hf|]. split; [exact Hr|].
  intros loaded. rewrite Hr. simpl. now intros [= <-].
Qed.

End StateStore.

(** ** One reconciliation cycle *)

Local Open Scope list_scope.

Section Cycle.

Context {W : Type} (X : Collab W) (args : Args) (env : Env).


#[local] Abbreviation fetched state repo :=
  (fetchLatestRelease X args repo (GITHUB_TOKEN env)
     (etag (repoStateOf state repo))).

Ltac run_now :=
  unfold console, emit, now, call, ret, bind, after, reading; simpl;
  repeat match goal with
         | |- context [clock_now X ?w] => destruct (clock_now X w)
         end;
  simpl; try reflexivity.

Lemma attempt_fetch_error state repo sys e sys1 :
  fetched state repo sys = (inl e, sys1) ->
  attempt X args env state repo sys = (inl e, sys1).
Proof. intros H. unfold attempt, bind. now rewrite H. Qed.

Lemma attempt_not_modified state repo sys sys1 :
  fetched state repo sys = (inr not_modified, sys1) ->
  attempt X args env state repo sys
  = (inr (setRepoState state repo
            (withCheckedAt (repoStateOf state repo) (reading X sys1)), false),
     after X (LogNoChanges repo) sys1).
Proof. intros H. unfold attempt. unfold bind at 1. rewrite H. run_now. Qed.

Lemma attempt_no_releases state repo sys sys1 :
  fetched state repo sys = (inr no_releases, sys1) ->
  attempt X args env state repo sys
  = (inr (setRepoState state repo
            (withCheckedAt (repoStateOf state repo) (reading X sys1)), false),
     after X (LogNoReleases repo) sys1).
Proof. intros H. unfold attempt. unfold bind at 1. rewrite H. run_now. Qed.

Lemma attempt_tracked state repo sys release etag' sys1 :
  fetched state repo sys = (inr (ok release etag'), sys1) ->
  isNew args (repoStateOf state repo) release = false ->
  attempt X args env state repo sys
  = (inr (setRepoState state repo
            {| etag := match etag' with
                       | Some e => Some e
                       | None => etag (repoStateOf state repo)
                       end;
               lastReleaseId := lastReleaseId (repoStateOf state repo);
               lastTag := lastTag (repoStateOf state repo);
               lastPublishedAt := lastPublishedAt (repoStateOf state repo);
               lastCheckedAt := Some (reading X sys1) |}, false),
     after X (LogAlreadyTracked repo (Release.tag_name release)
              (Release.id release)) sys1).
Proof.
  intros H Hn. unfold attempt. unfold bind at 1. rewrite H, Hn. run_now.
Qed.

Lemma attempt_dry_run state repo sys release etag' sys1 :
  fetched state repo sys = (inr (ok release etag'), sys1) ->
  isNew args (repoStateOf state repo) release = true ->
  arg_dry_run args = true ->
  attempt X args env state repo sys
  = (inr (setRepoState state repo
            (notified_record release etag' (reading X sys1)), true),
     after X (LogDryRun repo (listifyTo (MAIL_TO env))
              (r_subject (renderEmail X repo release))) sys1).
Proof.
  intros H Hn Hd. unfold attempt. unfold bind at 1. rewrite H, Hn, Hd.
  run_now.
Qed.

Lemma attempt_sent state repo sys release etag' sys1 sys2 :
  fetched state repo sys = (inr (ok release etag'), sys1) ->
  isNew args (repoStateOf state repo) release = true ->
  arg_dry_run args = false ->
  sendEmail X env (mail_for X env repo release) sys1 = (inr tt, sys2) ->
  attempt X args env state repo sys
  = (inr (setRepoState state repo
            (notified_record release etag' (reading X sys2)), true),
     after X (LogSent repo (Release.tag_name release)) sys2).
Proof.
  intros H Hn Hd Hs. unfold attempt. unfold bind at 1. rewrite H, Hn, Hd.
  simpl. unfold bind at 1. unfold bind at 1. unfold mail_for in Hs.
  rewrite Hs. run_now.
Qed.

Lemma attempt_send_error state repo sys release etag' sys1 e sys2 :
  fetched state repo sys = (inr (ok release etag'), sys1) ->
  isNew args (repoStateOf state repo) release = true ->
  arg_dry_run args = false ->
  sendEmail X env (mail_for X env repo release) sys1 = (inl e, sys2) ->
  attempt X args env state repo sys = (inl e, sys2).
Proof.
  intros H Hn Hd Hs. unfold attempt. unfold bind at 1. rewrite H, Hn, Hd.
  simpl. unfold bind at 1. unfold bind at 1. unfold mail_for in Hs.
  now rewrite Hs.
Qed.

Lemma reconcile_done state repo sys r sys1 :
  attempt X args env state repo sys = (inr r, sys1) ->
  reconcile X args env state repo sys = (inr r, sys1).
Proof. intros H. unfold reconcile, try_catch. now rewrite H. Qed.

Lemma reconcile_recovers state repo sys e sys1 :
  attempt X args env state repo sys = (inl e, sys1) ->
  reconcile X args env state repo sys
  = (inr (setRepoState state repo
            (withCheckedAt (repoStateOf state repo) (reading X sys1)), false),
     after X (LogError repo (message e)) sys1).
Proof.
  intros H. unfold reconcile, try_catch. rewrite H. unfold recover. run_now.
Qed.

Lemma sendEmail_trace input sys :
  trace (snd (sendEmail X env input sys)) = trace sys ++ [ESendEmail input]
  /\ files (snd (sendEmail X env input sys)) = files sys.
Proof.
  unfold sendEmail, bind, emit, call, ret, throw. simpl.
  destruct (Str.truthy (RESEND_API_KEY env)).
  - simpl. destruct (resend_send X input (world sys)) as [[e|[msg|]] w];
      simpl; split; reflexivity.
  - destruct (Str.truthy (SMTP_HOST env)); simpl.
    + destruct (smtp_sendMail X env _ (world sys)) as [[e|[]] w];
        simpl; split; reflexivity.
    + split; reflexivity.
Qed.

Lemma fetchLatestRelease_trace repo token etag0 sys :
  trace (snd (fetchLatestRelease X args repo token etag0 sys))
  = trace sys ++ [EFetch (mkRequest (release_url repo)
                            (request_headers args token etag0))]
  /\ files (snd (fetchLatestRelease X args repo token etag0 sys))
     = files sys.
Proof.
  unfold fetchLatestRelease, fetch, bind, emit, call, ret, throw. simpl.
  destruct (http_fetch X _ (world sys)) as [[e|resp] w]; simpl;
    [split; reflexivity|].
  destruct (status resp =? 304); [split; reflexivity|].
  destruct (status resp =? 404); [split; reflexivity|].
  destruct (negb (resp_ok resp)); [split; reflexivity|].
  destruct (resp_json resp); split; reflexivity.
Qed.

Lemma isNew_true_iff repoState release :
  isNew args repoState release = true <->
  lastReleaseId repoState <> Some (Release.id release)
  \/ lastTag repoState <> Some (Release.tag_name release)
  \/ arg_force args = true.
Proof.
  unfold isNew. rewrite !orb_true_iff, !negb_true_iff.
  rewrite !bool_decide_eq_false. tauto.
Qed.

Lemma repoStateOf_insert state repo r :
  repoStateOf (setRepoState state repo r) repo = r.
Proof. unfold repoStateOf, setRepoState. simpl. now rewrite lookup_insert_eq. Qed.


(** C1. When the fetch of a repository returns a release, the cycle
    notifies (calls [sendEmail], or prints the dry-run line in its place)
    exactly when the release id differs from the stored [lastReleaseId],
    or the tag differs from the stored [lastTag], or [--force] is set.
    With no stored record both comparisons differ, and a differing id
    alone is enough, whatever the tag. *)
Theorem reconcile_judges_new state repo sys release etag' sys1 :
  fetched state repo sys = (inr (ok release etag'), sys1) ->
  let repoState := repoStateOf state repo in
  let differs :=
    lastReleaseId repoState <> Some (Release.id release)
    \/ lastTag repoState <> Some (Release.tag_name release)
    \/ arg_force args = true in
  exists evs,
    trace (snd (reconcile X args env state repo sys)) = trace sys1 ++ evs
    /\ (notifies evs = true <-> differs)
    /\ (isNew args repoState release = true <-> differs)
    /\ (repos state !! repo = None ->
        lastReleaseId repoState <> Some (Release.id release)
        /\ lastTag repoState <> Some (Release.tag_name release)
        /\ notifies evs = true)
    /\ (lastReleaseId repoState <> Some (Release.id release) ->
        notifies evs = true).
Proof.
  intros Hf repoState differs.
  assert (Hiff : isNew args repoState release = true <-> differs)
    by apply isNew_true_iff.
  assert (Hnone : repos state !! repo = None ->
                  lastReleaseId repoState <> Some (Release.id release)
                  /\ lastTag repoState <> Some (Release.tag_name release)).
  { intros Hn. unfold repoState, repoStateOf. rewrite Hn. simpl.
    split; discriminate. }
  assert (Hgoal : exists evs,
    trace (snd (reconcile X args env state repo sys)) = trace sys1 ++ evs
    /\ notifies evs = isNew args repoState release).
  { destruct (isNew args repoState release) eqn:Hn.
    - destruct (arg_dry_run args) eqn:Hd.
      + rewrite (reconcile_done _ _ _ _ _
                   (attempt_dry_run _ _ _ _ _ _ Hf Hn Hd)).
        eexists. split; [reflexivity|reflexivity].
      + pose proof (sendEmail_trace (mail_for X env repo release) sys1)
          as [Ht _].
        destruct (sendEmail X env (mail_for X env repo release) sys1)
          as [[e|[]] sys2] eqn:Hs; simpl in Ht.
        * rewrite (reconcile_recovers _ _ _ _ _
                     (attempt_send_error _ _ _ _ _ _ _ _ Hf Hn Hd Hs)).
          simpl. rewrite Ht, <- app_assoc. eexists.
          split; [reflexivity|reflexivity].
        * rewrite (reconcile_done _ _ _ _ _
                     (attempt_sent _ _ _ _ _ _ _ Hf Hn Hd Hs)).
          simpl. rewrite Ht, <- app_assoc. eexists.
          split; [reflexivity|reflexivity].
    - rewrite (reconcile_done _ _ _ _ _ (attempt_tracked _ _ _ _ _ _ Hf Hn)).
      eexists. split; [reflexivity|reflexivity]. }
  destruct Hgoal as (evs & Ht & Hn). exists evs.
  split; [exact Ht|]. rewrite Hn.
  split; [exact Hiff|]. split; [exact Hiff|]. split.
  - intros H0. destruct (Hnone H0) as [Hi Htag].
    split; [exact Hi|]. split; [exact Htag|]. apply Hiff. now left.
  - intros Hi. apply Hiff. now left.
Qed.


Lemma only_checked_at_set state repo t :
  only_checked_at state
    (setRepoState state repo (withCheckedAt (repoStateOf state repo) t))
    repo t.
Proof.
  split.
  - eexists. split; [apply lookup_insert_eq|]. repeat split.
  - intros other Hne. simpl. now rewrite lookup_insert_ne.
Qed.

(** C5. When the fetch returns [not_modified] or [no_releases], the cycle
    ends normally without incrementing [changed], no notification is
    attempted, the record of the repository keeps its validator and its
    notified-* triple and takes the clock reading as checked timestamp,
    and no other record changes. *)
Theorem reconcile_unchanged state repo sys result sys1 :
  fetched state repo sys = (inr result, sys1) ->
  result = not_modified \/ result = no_releases ->
  exists state' sys' evs,
    reconcile X args env state repo sys = (inr (state', false), sys')
    /\ trace sys' = trace sys ++ evs
    /\ notifies evs = false
    /\ only_checked_at state state' repo (reading X sys1).
Proof.
  intros Hf Hr.
  pose proof (fetchLatestRelease_trace repo (GITHUB_TOKEN env)
                (etag (repoStateOf state repo)) sys) as [Ht _].
  rewrite Hf in Ht. simpl in Ht.
  destruct Hr as [-> | ->].
  - rewrite (reconcile_done _ _ _ _ _ (attempt_not_modified _ _ _ _ Hf)).
    do 3 eexists. split; [reflexivity|]. simpl. rewrite Ht, <- app_assoc.
    split; [reflexivity|]. split; [reflexivity|].
    apply only_checked_at_set.
  - rewrite (reconcile_done _ _ _ _ _ (attempt_no_releases _ _ _ _ Hf)).
    do 3 eexists. split; [reflexivity|]. simpl. rewrite Ht, <- app_assoc.
    split; [reflexivity|]. split; [reflexivity|].
    apply only_checked_at_set.
Qed.

Lemma attempt_fails state repo sys e sysE :
  cycle_fails X args env state repo sys e sysE ->
  attempt X args env state repo sys = (inl e, sysE).
Proof.
  intros [Hf|(release & etag' & sys1 & Hf & Hn & Hd & Hs)].
  - now apply attempt_fetch_error.
  - now apply (attempt_send_error _ _ _ _ _ _ _ _ Hf Hn Hd Hs).
Qed.

(** C3. When the cycle of a repository fails, by an error of the fetch or
    by an error of [sendEmail], nothing is thrown out of the cycle: it
    ends normally, [changed] is not incremented, the error is printed, the
    record of the repository keeps its validator and its notified-* triple
    and takes the clock reading as checked timestamp, and no other record
    changes. *)
Theorem reconcile_failure state repo sys e sysE :
  cycle_fails X args env state repo sys e sysE ->
  exists state',
    reconcile X args env state repo sys
    = (inr (state', false), after X (LogError repo (message e)) sysE)
    /\ only_checked_at state state' repo (reading X sysE)
    /\ notified (repoStateOf state' repo) = notified (repoStateOf state repo).
Proof.
  intros H. apply attempt_fails in H.
  rewrite (reconcile_recovers _ _ _ _ _ H). eexists.
  split; [reflexivity|]. split; [apply only_checked_at_set|].
  now rewrite repoStateOf_insert.
Qed.

(** Every cycle ends normally.  What it stores and what it does depend on
    the state object through the record of its repository alone; the
    stored record has a checked timestamp, and its notified-* triple is
    either the stored one or the three fields of one fetched release; the
    cycle makes one fetch, of the address of its repository, and leaves
    the files alone. *)
Lemma reconcile_cases state repo sys :
  exists new changed sys' evs,
    (forall state2,
       repoStateOf state2 repo = repoStateOf state repo ->
       reconcile X args env state2 repo sys
       = (inr (setRepoState state2 repo new, changed), sys'))
    /\ is_Some (lastCheckedAt new)
    /\ (notified new = notified (repoStateOf state repo)
        \/ exists release,
             notified new = (Some (Release.id release),
                             Some (Release.tag_name release),
                             Some (Release.published_at release)))
    /\ trace sys' = trace sys ++ evs
    /\ fetched_urls evs = [release_url repo]
    /\ files sys' = files sys.
Proof.
  pose proof (fetchLatestRelease_trace repo (GITHUB_TOKEN env)
                (etag (repoStateOf state repo)) sys) as [Ht Hfl].
  destruct (fetched state repo sys) as [[e|[| |release etag']] sys1] eqn:Hf;
    simpl in Ht, Hfl.
  - do 4 eexists. split; [|split; [|split; [|split; [|split]]]].
    + intros state2 Heq. rewrite <- Heq in Hf.
      rewrite (reconcile_recovers _ _ _ _ _
                 (attempt_fetch_error _ _ _ _ _ Hf)).
      rewrite Heq. reflexivity.
    + now eexists.
    + now left.
    + simpl. rewrite Ht, <- app_assoc. reflexivity.
    + reflexivity.
    + exact Hfl.
  - do 4 eexists. split; [|split; [|split; [|split; [|split]]]].
    + intros state2 Heq. rewrite <- Heq in Hf.
      rewrite (reconcile_done _ _ _ _ _ (attempt_not_modified _ _ _ _ Hf)).
      rewrite Heq. reflexivity.
    + now eexists.
    + now left.
    + simpl. rewrite Ht, <- app_assoc. reflexivity.
    + reflexivity.
    + exact Hfl.
  - do 4 eexists. split; [|split; [|split; [|split; [|split]]]].
    + intros state2 Heq. rewrite <- Heq in Hf.
      rewrite (reconcile_done _ _ _ _ _ (attempt_no_releases _ _ _ _ Hf)).
      rewrite Heq. reflexivity.
    + now eexists.
    + now left.
    + simpl. rewrite Ht, <- app_assoc. reflexivity.
    + reflexivity.
    + exact Hfl.
  - destruct (isNew args (repoStateOf state repo) release) eqn:Hn.
    + destruct (arg_dry_run args) eqn:Hd.
      * do 4 eexists. split; [|split; [|split; [|split; [|split]]]].
        -- intros state2 Heq. rewrite <- Heq in Hf, Hn.
           rewrite (reconcile_done _ _ _ _ _
                      (attempt_dry_run _ _ _ _ _ _ Hf Hn Hd)).
           reflexivity.
        -- now eexists.
        -- right. now exists release.
        -- simpl. rewrite Ht, <- app_assoc. reflexivity.
        -- reflexivity.
        -- exact Hfl.
      * pose proof (sendEmail_trace (mail_for X env repo release) sys1)
          as [Hst Hsf].
        destruct (sendEmail X env (mail_for X env repo release) sys1)
          as [[e|[]] sys2] eqn:Hs; simpl in Hst, Hsf.
        -- do 4 eexists. split; [|split; [|split; [|split; [|split]]]].
           ++ intros state2 Heq. rewrite <- Heq in Hf, Hn.
              rewrite (reconcile_recovers _ _ _ _ _
                         (attempt_send_error _ _ _ _ _ _ _ _ Hf Hn Hd Hs)).
              rewrite Heq. reflexivity.
           ++ now eexists.
           ++ now left.
           ++ simpl. rewrite Hst, Ht, <- !app_assoc. reflexivity.
           ++ reflexivity.
           ++ simpl. congruence.
        -- do 4 eexists. split; [|split; [|split; [|split; [|split]]]].
           ++ intros state2 Heq. rewrite <- Heq in Hf, Hn.
              rewrite (reconcile_done _ _ _ _ _
                         (attempt_sent _ _ _ _ _ _ _ Hf Hn Hd Hs)).
              reflexivity.
           ++ now eexists.
           ++ right. now exists release.
           ++ simpl. rewrite Hst, Ht, <- !app_assoc. reflexivity.
           ++ reflexivity.
           ++ simpl. congruence.
    + do 4 eexists. split; [|split; [|split; [|split; [|split]]]].
      * intros state2 Heq. rewrite <- Heq in Hf, Hn.
        rewrite (reconcile_done _ _ _ _ _
                   (attempt_tracked _ _ _ _ _ _ Hf Hn)).
        rewrite Heq. reflexivity.
      * now eexists.
      * now left.
      * simpl. rewrite Ht, <- app_assoc. reflexivity.
      * reflexivity.
      * exact Hfl.
Qed.

Lemma reconcile_total state repo sys :
  exists new changed sys',
    reconcile X args env state repo sys
    = (inr (setRepoState state repo new, changed), sys')
    /\ is_Some (lastCheckedAt new)
    /\ (notified new = notified (repoStateOf state repo)
        \/ exists release,
             notified new = (Some (Release.id release),
                             Some (Release.tag_name release),
                             Some (Release.published_at release))).
Proof.
  destruct (reconcile_cases state repo sys)
    as (new & changed & sys' & evs & Hr & Hc & Ht & _).
  exists new, changed, sys'. split; [now apply Hr|]. now split.
Qed.

(** What a cycle leaves in the record of its repository: the notified-*
    triple as it was, without counting, or the whole record replaced from
    the release the fetch returned and that was judged new, counting. *)
Lemma reconcile_outcome state repo sys :
  exists new changed sys',
    reconcile X args env state repo sys
    = (inr (setRepoState state repo new, changed), sys')
    /\ (notified new = notified (repoStateOf state repo) /\ changed = false
        \/ exists release etag' sys1 t,
             fetched state repo sys = (inr (ok release etag'), sys1)
             /\ isNew args (repoStateOf state repo) release = true
             /\ new = notified_record release etag' t
             /\ changed = true).
Proof.
  destruct (fetched state repo sys) as [[e|[| |release etag']] sys1] eqn:Hf.
  - do 3 eexists. split.
    { apply reconcile_recovers, attempt_fetch_error, Hf. }
    left. now split.
  - do 3 eexists. split.
    { apply reconcile_done, attempt_not_modified, Hf. }
    left. now split.
  - do 3 eexists. split.
    { apply reconcile_done, attempt_no_releases, Hf. }
    left. now split.
  - destruct (isNew args (repoStateOf state repo) release) eqn:Hn.
    + destruct (arg_dry_run args) eqn:Hd.
      * do 3 eexists. split.
        { apply reconcile_done. apply (attempt_dry_run _ _ _ _ _ _ Hf Hn Hd). }
        right. exists release, etag', sys1. eexists.
        split; [reflexivity|]. split; [exact Hn|]. now split.
      * destruct (sendEmail X env (mail_for X env repo release) sys1)
          as [[e|[]] sys2] eqn:Hs.
        -- do 3 eexists. split.
           { apply reconcile_recovers.
             apply (attempt_send_error _ _ _ _ _ _ _ _ Hf Hn Hd Hs). }
           left. now split.
        -- do 3 eexists. split.
           { apply reconcile_done.
             apply (attempt_sent _ _ _ _ _ _ _ Hf Hn Hd Hs). }
           right. exists release, etag', sys1. eexists.
           split; [reflexivity|]. split; [exact Hn|]. now split.
    + do 3 eexists. split.
      { apply reconcile_done. apply (attempt_tracked _ _ _ _ _ _ Hf Hn). }
      left. now split.
Qed.

(** C2, amended. When a release is judged new and the notification step
    goes through (a dry run, or a [sendEmail] that returns), the record of
    the repository is replaced as a whole by the fetched validator, the
    id, tag and publication time of the release and the clock reading, by
    the same expression in both modes, and [changed] is incremented.
    Whatever a cycle does, it either leaves the three notified-* fields
    as they were stored and does not count, or the fetch returned a
    release that was judged new and the whole record is the one made of
    that release and the fetched validator, and the cycle counts: no
    notified-* field is ever set alone, or from anything but the release
    just fetched. *)
Theorem reconcile_notified state repo sys :
  (forall release etag' sys1 sysN,
     fetched state repo sys = (inr (ok release etag'), sys1) ->
     isNew args (repoStateOf state repo) release = true ->
     (arg_dry_run args = true /\ sysN = sys1
      \/ arg_dry_run args = false
         /\ sendEmail X env (mail_for X env repo release) sys1
            = (inr tt, sysN)) ->
     exists line,
       reconcile X args env state repo sys
       = (inr (setRepoState state repo
                 (notified_record release etag' (reading X sysN)), true),
          after X line sysN))
  /\ (exists state' changed sys' new,
        reconcile X args env state repo sys = (inr (state', changed), sys')
        /\ repos state' !! repo = Some new
        /\ (lastReleaseId new = lastReleaseId (repoStateOf state repo)
            /\ lastTag new = lastTag (repoStateOf state repo)
            /\ lastPublishedAt new = lastPublishedAt (repoStateOf state repo)
            /\ changed = false
            \/ exists release etag' sys1 t,
                 fetched state repo sys = (inr (ok release etag'), sys1)
                 /\ isNew args (repoStateOf state repo) release = true
                 /\ new = notified_record release etag' t
                 /\ lastReleaseId new = Some (Release.id release)
                 /\ lastTag new = Some (Release.tag_name release)
                 /\ lastPublishedAt new
                    = Some (Release.published_at release)
                 /\ changed = true)).
Proof.
  split.
  - intros release etag' sys1 sysN Hf Hn [[Hd ->]|[Hd Hs]].
    + eexists. apply reconcile_done. now apply attempt_dry_run.
    + eexists. apply reconcile_done.
      now apply (attempt_sent _ _ _ _ _ _ _ Hf Hn Hd Hs).
  - destruct (reconcile_outcome state repo sys)
      as (new & changed & sys' & Hr & Ht).
    exists (setRepoState state repo new), changed, sys', new.
    split; [exact Hr|]. split; [apply lookup_insert_eq|].
    destruct Ht as [[Ht ->]|(release & etag' & sys1 & t & Hf & Hn & -> & ->)].
    + left. unfold notified in Ht. injection Ht as H1 H2 H3. now repeat split.
    + right. exists release, etag', sys1, t. now repeat split.
Qed.

(** C9. After a fetch that returns a release: in the already-tracked
    branch the stored validator becomes the fetched one when there is one
    and stays as it was when there is none; in the notified branch (dry
    run, or [sendEmail] returned) it becomes the fetched one in both
    cases, so a fetch without a validator leaves none stored. *)
Theorem reconcile_etag state repo sys release etag' sys1 :
  fetched state repo sys = (inr (ok release etag'), sys1) ->
  (isNew args (repoStateOf state repo) release = false ->
   exists state' sys' new,
     reconcile X args env state repo sys = (inr (state', false), sys')
     /\ repos state' !! repo = Some new
     /\ etag new = match etag' with
                   | Some e => Some e
                   | None => etag (repoStateOf state repo)
                   end)
  /\ (isNew args (repoStateOf state repo) release = true ->
      forall sysN,
        (arg_dry_run args = true /\ sysN = sys1
         \/ arg_dry_run args = false
            /\ sendEmail X env (mail_for X env repo release) sys1
               = (inr tt, sysN)) ->
        exists state' sys' new,
          reconcile X args env state repo sys = (inr (state', true), sys')
          /\ repos state' !! repo = Some new
          /\ etag new = etag'
          /\ (etag' = None -> etag new = None)).
Proof.
  intros Hf. split.
  - intros Hn.
    rewrite (reconcile_done _ _ _ _ _ (attempt_tracked _ _ _ _ _ _ Hf Hn)).
    do 3 eexists. split; [reflexivity|].
    split; [apply lookup_insert_eq|reflexivity].
  - intros Hn sysN [[Hd ->]|[Hd Hs]].
    + rewrite (reconcile_done _ _ _ _ _
                 (attempt_dry_run _ _ _ _ _ _ Hf Hn Hd)).
      do 3 eexists. split; [reflexivity|].
      split; [apply lookup_insert_eq|]. split; [reflexivity|trivial].
    + rewrite (reconcile_done _ _ _ _ _
                 (attempt_sent _ _ _ _ _ _ _ Hf Hn Hd Hs)).
      do 3 eexists. split; [reflexivity|].
      split; [apply lookup_insert_eq|]. split; [reflexivity|trivial].
Qed.


(** C6. Once the HTTP client has answered, the result of the fetcher is
    decided by the response alone, one case per response: [not_modified]
    exactly for status 304; [no_releases] exactly for status 404; for any
    other status outside 200..299 an error whose message carries the
    status and the response body; and for a status in 200..299 the parsed
    release with the validator of the [etag] header, which is absent
    exactly when the header is (or the error of the body parser when the
    body is not a release document). *)
Theorem fetchLatestRelease_classifies repo token etag0 sys resp w1 :
  http_fetch X (mkRequest (release_url repo)
                  (request_headers args token etag0)) (world sys)
  = (inr resp, w1) ->
  let result := fst (fetchLatestRelease X args repo token etag0 sys) in
  (result = inr not_modified <-> status resp = 304)
  /\ (result = inr no_releases <-> status resp = 404)
  /\ (status resp <> 304 -> status resp <> 404 -> resp_ok resp = false ->
      result = inl (Error ("GitHub API " +:+ Str.of_Z (status resp)
                           +:+ " for " +:+ release_url repo +:+ ": "
                           +:+ resp_text resp)))
  /\ (forall data validator,
        result = inr (ok data validator) <->
        resp_ok resp = true /\ resp_json resp = inr data
        /\ validator = resp_etag resp)
  /\ (forall data validator,
        result = inr (ok data validator) ->
        (validator = None <-> resp_etag resp = None))
  /\ (resp_ok resp = true -> status resp <> 304 /\ status resp <> 404)
  /\ (resp_ok resp = true -> forall e, resp_json resp = inl e ->
      result = inl e).
Proof.
  intros Hh result.
  assert (Hok : resp_ok resp = true ->
                status resp <> 304 /\ status resp <> 404).
  { unfold resp_ok. rewrite andb_true_iff, !Z.leb_le. lia. }
  assert (Hres : result =
    if status resp =? 304 then inr not_modified
    else if status resp =? 404 then inr no_releases
    else if negb (resp_ok resp) then
      inl (Error ("GitHub API " +:+ Str.of_Z (status resp) +:+ " for "
                  +:+ release_url repo +:+ ": " +:+ resp_text resp))
    else match resp_json resp with
         | inl e => inl e
         | inr data => inr (ok data (resp_etag resp))
         end).
  { unfold result, fetchLatestRelease, fetch, bind, emit, call, ret, throw.
    simpl. rewrite Hh. simpl.
    destruct (status resp =? 304); [reflexivity|].
    destruct (status resp =? 404); [reflexivity|].
    destruct (negb (resp_ok resp)); [reflexivity|].
    destruct (resp_json resp); reflexivity. }
  clearbody result. subst result.
  destruct (Z.eqb_spec (status resp) 304) as [E304|N304];
    [|destruct (Z.eqb_spec (status resp) 404) as [E404|N404];
      [|destruct (resp_ok resp) eqn:Hk; simpl;
        [destruct (resp_json resp) as [e|data] eqn:Hj|]]].
  all: repeat split; intros;
    repeat match goal with
           | H : false = true |- _ => discriminate H
           | H : _ /\ _ |- _ => destruct H
           | H : _ = true |- _ => destruct (Hok H); clear H
           | H : inr _ = inr _ |- _ => injection H as H; try subst
           | H : ok _ _ = ok _ _ |- _ => injection H as H; try subst
           end;
    subst; try congruence; try discriminate; try lia; try reflexivity.
Qed.


End Cycle.

(** ** The loop over the repositories *)

Section Loop.

Context {W : Type} (X : Collab W) (args : Args) (env : Env).

Lemma loop_cons repo rest state changed sys state1 notified1 sys1 :
  reconcile X args env state repo sys = (inr (state1, notified1), sys1) ->
  loop X args env (repo :: rest) state changed sys
  = loop X args env rest state1 (count changed notified1) sys1.
Proof. intros H. simpl. unfold bind. now rewrite H. Qed.

Lemma loop_app before rest state changed sys state1 changed1 sys1 :
  loop X args env before state changed sys = (inr (state1, changed1), sys1) ->
  loop X args env (before ++ rest) state changed sys
  = loop X args env rest state1 changed1 sys1.
Proof.
  revert state changed sys.
  induction before as [|repo before IH]; intros state changed sys.
  - simpl. unfold ret. now intros [= -> -> ->].
  - destruct (reconcile_total X args env state repo sys)
      as (new & notified1 & sys0 & Hr & _).
    rewrite <- app_comm_cons, !(loop_cons _ _ _ _ _ _ _ _ Hr). apply IH.
Qed.

(** The loop goes through the whole list whatever its cycles meet: it
    ends normally, fetches the address of every entry once per occurrence
    and in order, leaves every listed repository with a checked timestamp,
    and leaves the records of the others and the files alone. *)
Lemma loop_runs repos0 state changed sys :
  exists state' changed' sys' evs,
    loop X args env repos0 state changed sys
    = (inr (state', changed'), sys')
    /\ trace sys' = trace sys ++ evs
    /\ fetched_urls evs = map release_url repos0
    /\ files sys' = files sys
    /\ (forall repo, repo ∈ repos0 ->
        exists r, repos state' !! repo = Some r
                  /\ is_Some (lastCheckedAt r))
    /\ (forall repo, repo ∉ repos0 ->
        repos state' !! repo = repos state !! repo).
Proof.
  revert state changed sys.
  induction repos0 as [|repo rest IH]; intros state changed sys.
  - exists state, changed, sys, []. simpl. unfold ret.
    split; [reflexivity|]. split; [now rewrite app_nil_r|].
    split; [reflexivity|]. split; [reflexivity|].
    split; [intros r Hr; now apply elem_of_nil in Hr|reflexivity].
  - destruct (reconcile_cases X args env state repo sys)
      as (new & notified1 & sys1 & evs1 & Hr & Hc & _ & Ht1 & Hu1 & Hf1).
    specialize (Hr state eq_refl).
    destruct (IH (setRepoState state repo new) (count changed notified1) sys1)
      as (state' & changed' & sys' & evs & Hl & Ht & Hu & Hf & Hin & Hout).
    exists state', changed', sys', (evs1 ++ evs).
    split; [now rewrite (loop_cons _ _ _ _ _ _ _ _ Hr)|].
    split; [now rewrite Ht, Ht1, app_assoc|].
    split.
    { unfold fetched_urls in *. rewrite flat_map_app, Hu1, Hu. reflexivity. }
    split; [congruence|]. split.
    + intros r Hr0. destruct (decide (r ∈ rest)) as [Hin'|Hnin].
      * now apply Hin.
      * apply elem_of_cons in Hr0 as [->|Hr0]; [|contradiction].
        rewrite (Hout _ Hnin). simpl. rewrite lookup_insert_eq.
        now exists new.
    + intros r Hr0. apply not_elem_of_cons in Hr0 as [Hne Hnin].
      rewrite (Hout _ Hnin). simpl. now rewrite lookup_insert_ne.
Qed.

Lemma parseRepos_app l1 l2 :
  parseRepos (l1 ++ l2)
  = match parseRepos l1 with
    | inl e => inl e
    | inr r1 => match parseRepos l2 with
                | inl e => inl e
                | inr r2 => inr (r1 ++ r2)
                end
    end.
Proof.
  induction l1 as [|input l1 IH]; simpl.
  - now destruct (parseRepos l2).
  - destruct (parseRepoEntry input); [reflexivity|]. rewrite IH.
    destruct (parseRepos l1); [reflexivity|].
    now destruct (parseRepos l2).
Qed.

Lemma parseRepos_length l repos0 :
  parseRepos l = inr repos0 -> length repos0 = length l.
Proof.
  revert repos0. induction l as [|input l IH]; simpl; intros repos0.
  - now intros [= <-].
  - destruct (parseRepoEntry input); [discriminate|].
    destruct (parseRepos l); [discriminate|].
    intros [= <-]. simpl. f_equal. now apply IH.
Qed.

Lemma readState_sys filePath (sys : Sys W) :
  snd (readState filePath sys) = sys.
Proof.
  unfold readState, try_catch, bind, readFile, ret, throw.
  destruct (files sys !! filePath) as [data|]; [|reflexivity].
  now destruct (JSON.parse data).
Qed.

(** A run of [main] that gets its list and its state ends by writing the
    state the loop ended with, as one document, to the state file. *)
Lemma main_finishes sys cfg sys0 repos0 state state' changed sys1 :
  loadConfigRepos args sys = (inr cfg, sys0) ->
  parseRepos (repoList args cfg) = inr repos0 ->
  fst (readState (default DEFAULT_STATE (arg_state_file args)) sys0)
  = inr (Some state) ->
  loop X args env repos0 state 0%nat sys0 = (inr (state', changed), sys1) ->
  main X args env sys
  = (inr (Finished changed),
     mkSys (world sys1)
       (<[default DEFAULT_STATE (arg_state_file args)
          := JSON.stringify (json_of_StateFile state') +:+ JSON.LF]>
          (files sys1))
       (trace sys1 ++ [EConsole (LogDone changed)])).
Proof.
  intros Hc Hp Hs Hl. unfold main. unfold bind at 1. rewrite Hc, Hp.
  unfold bind at 1.
  pose proof (readState_sys (default DEFAULT_STATE (arg_state_file args))
                sys0) as Hsys.
  destruct (readState _ sys0) as [r sys0']. simpl in Hs, Hsys. subst r sys0'.
  unfold bind at 1. rewrite Hl. reflexivity.
Qed.

(** Such a run leaves a state file that reads back as the state the loop
    ended with. *)
Lemma main_persists sys cfg sys0 repos0 state state' changed sys1 :
  loadConfigRepos args sys = (inr cfg, sys0) ->
  parseRepos (repoList args cfg) = inr repos0 ->
  fst (readState (default DEFAULT_STATE (arg_state_file args)) sys0)
  = inr (Some state) ->
  loop X args env repos0 state 0%nat sys0 = (inr (state', changed), sys1) ->
  exists sys2,
    main X args env sys = (inr (Finished changed), sys2)
    /\ files sys2 !! default DEFAULT_STATE (arg_state_file args)
       = Some (JSON.stringify (json_of_StateFile state') +:+ JSON.LF)
    /\ readState (default DEFAULT_STATE (arg_state_file args)) sys2
       = (inr (Some state'), sys2).
Proof.
  intros Hc Hp Hs Hl.
  rewrite (main_finishes _ _ _ _ _ _ _ _ Hc Hp Hs Hl). eexists.
  split; [reflexivity|].
  assert (Hf : forall (w : W) (fs : gmap string string) tr doc,
            files (mkSys w (<[default DEFAULT_STATE (arg_state_file args)
                               := doc]> fs) tr)
            !! default DEFAULT_STATE (arg_state_file args) = Some doc).
  { intros. simpl. apply lookup_insert_eq. }
  split; [apply Hf|]. apply readState_written, Hf.
Qed.


(** With a config file whose document is an object with a [repos] array,
    the entries of the array are what the main function appends. *)
Lemma loadConfigRepos_file (sys : Sys W) path content members items :
  arg_config_file args = Some path -> path <> "" ->
  files sys !! path = Some content ->
  JSON.parse content = Some (JSON.Obj members) ->
  property "repos" members = Some (JSON.Arr items) ->
  loadConfigRepos args sys = (inr items, sys).
Proof.
  intros Ha Hne Hf Hp Hq. unfold loadConfigRepos. rewrite Ha.
  destruct path as [|c path]; [congruence|]. simpl.
  unfold loadReposFromConfig, try_catch, bind, readFile, ret.
  now rewrite Hf, Hp, Hq.
Qed.

Lemma loadConfigRepos_none (sys : Sys W) :
  Str.truthy (arg_config_file args) = false ->
  loadConfigRepos args sys = (inr [], sys).
Proof. intros Ha. unfold loadConfigRepos. now rewrite Ha. Qed.

(** A run of [main] whose two sources parse goes through the identifiers
    of the first followed by those of the second. *)
Lemma main_processes sys cfg r1 r2 state :
  loadConfigRepos args sys = (inr cfg, sys) ->
  parseRepos (map JSON.Str (default [] (arg_repo args))) = inr r1 ->
  parseRepos cfg = inr r2 ->
  fst (readState (default DEFAULT_STATE (arg_state_file args)) sys)
  = inr (Some state) ->
  exists state' changed sys1 evs sys2,
    loop X args env (r1 ++ r2) state 0%nat sys
    = (inr (state', changed), sys1)
    /\ trace sys1 = trace sys ++ evs
    /\ fetched_urls evs = map release_url r1 ++ map release_url r2
    /\ main X args env sys = (inr (Finished changed), sys2)
    /\ trace sys2 = trace sys ++ evs ++ [EConsole (LogDone changed)]
    /\ readState (default DEFAULT_STATE (arg_state_file args)) sys2
       = (inr (Some state'), sys2).
Proof.
  intros Hc H1 H2 Hs.
  assert (Hp : parseRepos (repoList args cfg) = inr (r1 ++ r2))
    by (unfold repoList; now rewrite parseRepos_app, H1, H2).
  destruct (loop_runs (r1 ++ r2) state 0%nat sys)
    as (state' & changed & sys1 & evs & Hl & Ht & Hu & _).
  exists state', changed, sys1, evs. eexists.
  split; [exact Hl|]. split; [exact Ht|].
  split; [now rewrite Hu, map_app|].
  split; [exact (main_finishes _ _ _ _ _ _ _ _ Hc Hp Hs Hl)|].
  split; [simpl; now rewrite Ht, app_assoc|].
  apply readState_written. simpl. apply lookup_insert_eq.
Qed.

(** C8. The list the program processes is the [--repo] values followed by
    the entries of the config file, each parsed, in that order and with
    nothing removed.  A run of [main] with a config file whose document
    has a [repos] array goes through the identifiers of the [--repo]
    values and then through those of the array: it fetches the address of
    each, once per occurrence and in that order, and the state it writes
    to the state file, which [readState] reads from it afterwards, is the
    one the loop over that list ends with; without a config file the list
    is the [--repo] values alone.  The length of the list is the sum of
    the two lengths.  The record an identifier ends with is the one stored
    by the cycle of its last occurrence, which started from what the
    earlier occurrences left. *)
Theorem repoList_processing :
  (forall sys path content members items r1 r2 state,
     arg_config_file args = Some path -> path <> "" ->
     files sys !! path = Some content ->
     JSON.parse content = Some (JSON.Obj members) ->
     property "repos" members = Some (JSON.Arr items) ->
     parseRepos (map JSON.Str (default [] (arg_repo args))) = inr r1 ->
     parseRepos items = inr r2 ->
     fst (readState (default DEFAULT_STATE (arg_state_file args)) sys)
     = inr (Some state) ->
     exists state' changed sys1 evs sys2,
       loop X args env (r1 ++ r2) state 0%nat sys
       = (inr (state', changed), sys1)
       /\ trace sys1 = trace sys ++ evs
       /\ fetched_urls evs = map release_url r1 ++ map release_url r2
       /\ main X args env sys = (inr (Finished changed), sys2)
       /\ trace sys2 = trace sys ++ evs ++ [EConsole (LogDone changed)]
       /\ readState (default DEFAULT_STATE (arg_state_file args)) sys2
          = (inr (Some state'), sys2))
  /\ (forall sys r1 state,
        Str.truthy (arg_config_file args) = false ->
        parseRepos (map JSON.Str (default [] (arg_repo args))) = inr r1 ->
        fst (readState (default DEFAULT_STATE (arg_state_file args)) sys)
        = inr (Some state) ->
        exists state' changed sys1 evs sys2,
          loop X args env r1 state 0%nat sys
          = (inr (state', changed), sys1)
          /\ trace sys1 = trace sys ++ evs
          /\ fetched_urls evs = map release_url r1
          /\ main X args env sys = (inr (Finished changed), sys2)
          /\ trace sys2 = trace sys ++ evs ++ [EConsole (LogDone changed)]
          /\ readState (default DEFAULT_STATE (arg_state_file args)) sys2
             = (inr (Some state'), sys2))
  /\ (forall cfg,
     repoList args cfg = map JSON.Str (default [] (arg_repo args)) ++ cfg)
  /\ (forall cfg repos0,
        parseRepos (repoList args cfg) = inr repos0 ->
        exists r1 r2,
          parseRepos (map JSON.Str (default [] (arg_repo args))) = inr r1
          /\ parseRepos cfg = inr r2
          /\ repos0 = r1 ++ r2
          /\ length repos0
             = (length (default [] (arg_repo args)) + length cfg)%nat)
  /\ (forall repos0 state changed sys,
        exists state' changed' sys' evs,
          loop X args env repos0 state changed sys
          = (inr (state', changed'), sys')
          /\ trace sys' = trace sys ++ evs
          /\ fetched_urls evs = map release_url repos0)
  /\ (forall before repo rest state changed sys state1 changed1 sys1
             state2 notified2 sys2,
        repo ∉ rest ->
        loop X args env before state changed sys
        = (inr (state1, changed1), sys1) ->
        reconcile X args env state1 repo sys1
        = (inr (state2, notified2), sys2) ->
        exists state' changed' sys',
          loop X args env (before ++ repo :: rest) state changed sys
          = (inr (state', changed'), sys')
          /\ repos state' !! repo = repos state2 !! repo)
  /\ (forall sys cfg sys0 repos0 state state' changed sys1,
        loadConfigRepos args sys = (inr cfg, sys0) ->
        parseRepos (repoList args cfg) = inr repos0 ->
        fst (readState (default DEFAULT_STATE (arg_state_file args)) sys0)
        = inr (Some state) ->
        loop X args env repos0 state 0%nat sys0
        = (inr (state', changed), sys1) ->
        exists sys2,
          main X args env sys = (inr (Finished changed), sys2)
          /\ files sys2 !! default DEFAULT_STATE (arg_state_file args)
             = Some (JSON.stringify (json_of_StateFile state')
                     +:+ JSON.LF)
          /\ readState (default DEFAULT_STATE (arg_state_file args)) sys2
             = (inr (Some state'), sys2)).
Proof.
  split.
  { intros sys path content members items r1 r2 state Ha Hne Hf Hp Hq H1 H2
           Hs.
    exact (main_processes _ _ _ _ _
             (loadConfigRepos_file _ _ _ _ _ Ha Hne Hf Hp Hq) H1 H2 Hs). }
  split.
  { intros sys r1 state Ha H1 Hs.
    destruct (main_processes sys [] r1 [] state
                (loadConfigRepos_none _ Ha) H1 eq_refl Hs)
      as (state' & changed & sys1 & evs & sys2 & Hl & Ht & Hu & Hm & Ht2
          & Hr).
    rewrite app_nil_r in Hl, Hu.
    now exists state', changed, sys1, evs, sys2. }
  split; [reflexivity|]. split; [|split; [|split]].
  - intros cfg repos0. unfold repoList. rewrite parseRepos_app.
    destruct (parseRepos (map JSON.Str _)) as [e|r1] eqn:H1; [discriminate|].
    destruct (parseRepos cfg) as [e|r2] eqn:H2; [discriminate|].
    intros [= <-]. exists r1, r2. repeat split.
    rewrite length_app, (parseRepos_length _ _ H1), (parseRepos_length _ _ H2).
    now rewrite length_map.
  - intros repos0 state changed sys.
    destruct (loop_runs repos0 state changed sys)
      as (state' & changed' & sys' & evs & Hl & Ht & Hu & _).
    now exists state', changed', sys', evs.
  - intros before repo rest state changed sys state1 changed1 sys1
           state2 notified2 sys2 Hnin Hl Hr.
    destruct (loop_runs rest state2 (count changed1 notified2) sys2)
      as (state' & changed' & sys' & evs & Hl' & _ & _ & _ & _ & Hout).
    exists state', changed', sys'. split; [|now apply Hout].
    now rewrite (loop_app _ _ _ _ _ _ _ _ Hl), (loop_cons _ _ _ _ _ _ _ _ Hr).
  - intros sys cfg sys0 repos0 state state' changed sys1 Hc Hp Hs Hl.
    exact (main_persists _ _ _ _ _ _ _ _ Hc Hp Hs Hl).
Qed.


End Loop.

(** ** The properties on scripted runs *)

Section Scenarios.

Import Scripted.

Lemma reconcile_judges_new_witness :
  exists evs,
    trace (snd (reconcile collab real_send env_resend tracked "octo/demo"
                  (start [found 11 "v1.0.0" None] [])))
    = trace (snd (fetchLatestRelease collab real_send "octo/demo" None
                    (Some "e0") (start [found 11 "v1.0.0" None] [])))
      ++ evs
    /\ notifies evs = true.
Proof.
  destruct (reconcile_judges_new collab real_send env_resend tracked
              "octo/demo" (start [found 11 "v1.0.0" None] [])
              (release 11 "v1.0.0") None
              (snd (fetchLatestRelease collab real_send "octo/demo" None
                      (Some "e0") (start [found 11 "v1.0.0" None] [])))
              eq_refl)
    as (evs & Ht & _ & _ & _ & Hid).
  exists evs. split; [exact Ht|]. apply Hid. vm_compute. discriminate.
Defined.

Lemma reconcile_unchanged_witness :
  exists state' sys' evs,
    reconcile collab real_send env_resend tracked "octo/demo"
      (start [answered 304 ""] [])
    = (inr (state', false), sys')
    /\ trace sys' = evs
    /\ notifies evs = false
    /\ only_checked_at tracked state' "octo/demo" "T0".
Proof.
  destruct (reconcile_unchanged collab real_send env_resend tracked
              "octo/demo" (start [answered 304 ""] []) not_modified
              (snd (fetchLatestRelease collab real_send "octo/demo" None
                      (Some "e0") (start [answered 304 ""] [])))
              eq_refl (or_introl eq_refl))
    as (state' & sys' & evs & Hr & Ht & Hn & Hc).
  exists state', sys', evs. split; [exact Hr|]. split; [exact Ht|].
  split; [exact Hn|exact Hc].
Defined.

Lemma reconcile_failure_witness :
  (exists state' sys',
     reconcile collab real_send env_resend tracked "octo/demo"
       (start [answered 500 "boom"] [])
     = (inr (state', false), sys')
     /\ only_checked_at tracked state' "octo/demo" "T0"
     /\ notified (repoStateOf state' "octo/demo")
        = (Some 10, Some "v1.0.0", Some "2024-01-01T00:00:00Z"))
  /\ (exists state' sys',
        reconcile collab real_send env_resend no_state "octo/demo"
          (start [found 10 "v1.0.0" (Some "e1")]
                 [inr (Some "domain is not verified")])
        = (inr (state', false), sys')
        /\ only_checked_at no_state state' "octo/demo" "T0"
        /\ notified (repoStateOf state' "octo/demo") = (None, None, None)).
Proof.
  split.
  - destruct (reconcile_failure collab real_send env_resend tracked
                "octo/demo" (start [answered 500 "boom"] [])
                (Error ("GitHub API 500 for "
                        +:+ "https://api.github.com/repos/octo/demo/releases/latest"
                        +:+ ": boom"))
                (snd (fetchLatestRelease collab real_send "octo/demo" None
                        (Some "e0") (start [answered 500 "boom"] [])))
                (or_introl eq_refl))
      as (state' & Hr & Hc & Hn).
    eexists state', _. split; [exact Hr|]. split; [exact Hc|exact Hn].
  - set (sys0 := start [found 10 "v1.0.0" (Some "e1")]
                       [inr (Some "domain is not verified")]).
    destruct (fetchLatestRelease collab real_send "octo/demo" None None sys0)
      as [r sys1] eqn:Hf.
    destruct (sendEmail collab env_resend
                (mail_for collab env_resend "octo/demo"
                   (release 10 "v1.0.0")) sys1)
      as [[e|u] sysE] eqn:Hs;
      [|vm_compute in Hf; injection Hf as <- <-;
        vm_compute in Hs; discriminate Hs].
    assert (Hr : r = inr (ok (release 10 "v1.0.0") (Some "e1")))
      by (vm_compute in Hf; now injection Hf as <- _).
    subst r.
    destruct (reconcile_failure collab real_send env_resend no_state
                "octo/demo" sys0 e sysE
                (or_intror (ex_intro _ (release 10 "v1.0.0")
                   (ex_intro _ (Some "e1")
                      (ex_intro _ sys1
                         (conj Hf (conj eq_refl (conj eq_refl Hs))))))))
      as (state' & Hr & Hc & Hn).
    eexists state', _. split; [exact Hr|].
    vm_compute in Hf. injection Hf as <-.
    vm_compute in Hs. injection Hs as <- <-.
    split; [exact Hc|exact Hn].
Defined.

(** C2 as it is stated fails: [octo/demo] has no stored record, the fetch
    returns release 10, the release is new, the run is a real send and the
    transport answers with an error; the cycle then stores no notified-*
    triple. *)
Lemma replaced_whenever_new_counterexample :
  ~ replaced_whenever_new collab real_send env_resend no_state "octo/demo"
      (start [found 10 "v1.0.0" (Some "e1")]
             [inr (Some "domain is not verified")]).
Proof.
  intros H.
  destruct (H (release 10 "v1.0.0") (Some "e1")
              (snd (fetchLatestRelease collab real_send "octo/demo" None
                      None
                      (start [found 10 "v1.0.0" (Some "e1")]
                             [inr (Some "domain is not verified")])))
              eq_refl eq_refl)
    as (state' & changed & sys' & t & Hr & Hl).
  vm_compute in Hr. injection Hr as <- _ _.
  vm_compute in Hl. discriminate Hl.
Qed.

Lemma reconcile_notified_witness :
  exists line sysN,
    reconcile collab dry_run env_resend no_state "octo/demo"
      (start [found 10 "v1.0.0" (Some "e1")] [])
    = (inr (setRepoState no_state "octo/demo"
              (notified_record (release 10 "v1.0.0") (Some "e1") "T0"),
            true),
       after collab line sysN).
Proof.
  destruct (proj1 (reconcile_notified collab dry_run env_resend no_state
                     "octo/demo" (start [found 10 "v1.0.0" (Some "e1")] []))
              (release 10 "v1.0.0") (Some "e1") _ _ eq_refl eq_refl
              (or_introl (conj eq_refl eq_refl)))
    as [line Hr].
  exists line. eexists. exact Hr.
Defined.

Lemma reconcile_etag_witness :
  (exists state' sys' new,
     reconcile collab real_send env_resend tracked "octo/demo"
       (start [found 10 "v1.0.0" None] [])
     = (inr (state', false), sys')
     /\ repos state' !! "octo/demo" = Some new
     /\ etag new = Some "e0")
  /\ (exists state' sys' new,
        reconcile collab dry_run env_resend tracked "octo/demo"
          (start [found 11 "v1.0.0" None] [])
        = (inr (state', true), sys')
        /\ repos state' !! "octo/demo" = Some new
        /\ etag new = None).
Proof.
  split.
  - destruct (proj1 (reconcile_etag collab real_send env_resend tracked
                       "octo/demo" (start [found 10 "v1.0.0" None] [])
                       (release 10 "v1.0.0") None _ eq_refl) eq_refl)
      as (state' & sys' & new & Hr & Hl & He).
    now exists state', sys', new.
  - destruct (proj2 (reconcile_etag collab dry_run env_resend tracked
                       "octo/demo" (start [found 11 "v1.0.0" None] [])
                       (release 11 "v1.0.0") None _ eq_refl) eq_refl _
                (or_introl (conj eq_refl eq_refl)))
      as (state' & sys' & new & Hr & Hl & _ & He).
    exists state', sys', new. split; [exact Hr|]. split; [exact Hl|].
    now apply He.
Defined.

Lemma fetchLatestRelease_classifies_witness :
  fst (fetchLatestRelease collab real_send "octo/demo" None None
         (start [answered 503 "unavailable"] []))
  = inl (Error ("GitHub API " +:+ Str.of_Z 503 +:+ " for "
                +:+ release_url "octo/demo" +:+ ": " +:+ "unavailable")).
Proof.
  refine (proj1 (proj2 (proj2
            (fetchLatestRelease_classifies collab real_send "octo/demo"
               None None (start [answered 503 "unavailable"] [])
               (mkResponse 503 None "unavailable"
                  (inl (Error "Unexpected token")))
               _ eq_refl))) _ _ _).
  - vm_compute. discriminate.
  - vm_compute. discriminate.
  - reflexivity.
Defined.


Lemma repoList_processing_witness :
  exists state' changed evs sys2,
    main collab
      (mkArgs (Some ["octo/demo"]) (Some "repos.config.json") None
              false false false)
      env_resend
      (mkSys (mkWorld [found 10 "v1.0.0" (Some "e1");
                       found 20 "v2.0.0" (Some "e2");
                       found 11 "v1.1.0" (Some "e3")] [] [] 0)
         {[ "repos.config.json"
            := JSON.stringify
                 (JSON.Obj [("repos", JSON.Arr [JSON.Str "acme/tool";
                                                JSON.Str "octo/demo"])]) ]}
         [])
    = (inr (Finished changed), sys2)
    /\ trace sys2 = evs ++ [EConsole (LogDone changed)]
    /\ fetched_urls evs
       = [release_url "octo/demo"; release_url "acme/tool";
          release_url "octo/demo"]
    /\ readState "./state.json" sys2 = (inr (Some state'), sys2)
    /\ lastReleaseId (repoStateOf state' "octo/demo") = Some 11
    /\ lastReleaseId (repoStateOf state' "acme/tool") = Some 20.
Proof.
  set (args := mkArgs (Some ["octo/demo"]) (Some "repos.config.json") None
                      false false false).
  set (content := JSON.stringify
                    (JSON.Obj [("repos", JSON.Arr [JSON.Str "acme/tool";
                                                   JSON.Str "octo/demo"])])).
  set (sys0 := mkSys (mkWorld [found 10 "v1.0.0" (Some "e1");
                               found 20 "v2.0.0" (Some "e2");
                               found 11 "v1.1.0" (Some "e3")] [] [] 0)
                 {[ "repos.config.json" := content ]} []).
  assert (Hne : "repos.config.json" <> "") by discriminate.
  assert (Hp : JSON.parse content
               = Some (JSON.Obj [("repos", JSON.Arr [JSON.Str "acme/tool";
                                                     JSON.Str "octo/demo"])]))
    by (vm_compute; reflexivity).
  destruct (proj1 (repoList_processing collab args env_resend)
              sys0 "repos.config.json" content
              [("repos", JSON.Arr [JSON.Str "acme/tool"; JSON.Str "octo/demo"])]
              [JSON.Str "acme/tool"; JSON.Str "octo/demo"]
              ["octo/demo"] ["acme/tool"; "octo/demo"] no_state
              eq_refl Hne eq_refl Hp eq_refl eq_refl eq_refl eq_refl)
    as (state' & changed & sys1 & evs & sys2 & Hl & Ht & Hu & Hm & Ht2 & Hr).
  exists state', changed, evs, sys2.
  split; [exact Hm|]. split; [exact Ht2|]. split; [exact Hu|].
  split; [exact Hr|].
  vm_compute in Hl. injection Hl as <- _ _. split; reflexivity.
Defined.

Lemma state_round_trip_witness :
  fst (readState "./state.json"
         (snd (writeState "./state.json" Scripted.tracked
                 (Scripted.start [] []))))
  = inr (Some Scripted.tracked)
  /\ repos Scripted.tracked !! "octo/demo"
     = Some (mkRepoState (Some "e0") (Some 10) (Some "v1.0.0")
               (Some "2024-01-01T00:00:00Z") (Some "T0")).
Proof.
  destruct (state_round_trip "./state.json" Scripted.tracked
              (Scripted.start [] [])) as (_ & _ & Hr & Hall).
  split.
  - now rewrite Hr.
  - pose proof (Hall Scripted.tracked ltac:(now rewrite Hr) "octo/demo")
      as Hl.
    vm_compute in Hl. vm_compute. exact Hl.
Defined.

End Scenarios.


(** * Further properties *)

(** ** Identifiers and the list of repositories *)

(** X1. The identifier [parseRepo] returns is canonical: it has exactly
    two segments, both non-empty, and [parseRepo] maps it to itself. *)
Theorem parseRepo_canonical (input : string) (key : RepoKey) :
  parseRepo input = inr key ->
  parseRepo key = inr key
  /\ exists owner repo,
       Str.split "/" key = [owner; repo] /\ owner <> "" /\ repo <> "".
Proof.
  intros H.
  destruct (parseRepo_inr_inv _ _ H) as (owner & repo & -> & Ho & Hr & _).
  split.
  - apply parseRepo_accepts. split; [exact Ho|]. split; [exact Hr|].
    now left.
  - exists owner, repo. destruct Ho as [Ho Hom], Hr as [Hr Hrm].
    split; [|now split].
    change (owner +:+ "/" +:+ repo) with (owner +:+ String "/" repo).
    rewrite split_at_sep by exact Hom. now rewrite split_no_sep.
Qed.

Lemma parseRepo_canonical_witness :
  parseRepo "vercel/next.js" = inr "vercel/next.js"
  /\ exists owner repo,
       Str.split "/" "vercel/next.js" = [owner; repo]
       /\ owner <> "" /\ repo <> "".
Proof.
  apply (parseRepo_canonical "vercel/next.js/releases" "vercel/next.js").
  reflexivity.
Defined.

(** X2. The list of repositories is parsed as a whole or not at all: it
    parses exactly when every entry is a string [parseRepo] accepts, into
    the identifiers of the entries in their order, and otherwise the error
    is the one of the first entry that fails. *)
Theorem parseRepos_all_or_first_error :
  (forall l keys,
     parseRepos l = inr keys <->
     Forall2 (fun input key => parseRepoEntry input = inr key) l keys)
  /\ (forall good keys bad rest e,
        parseRepos good = inr keys ->
        parseRepoEntry bad = inl e ->
        parseRepos (good ++ bad :: rest) = inl e).
Proof.
  split.
  - intros l. induction l as [|input l IH]; intros keys; simpl.
    + split.
      * intros [= <-]. constructor.
      * intros H. now inversion H.
    + destruct (parseRepoEntry input) as [e|key] eqn:He.
      * split; [discriminate|]. intros H. inversion H; congruence.
      * destruct (parseRepos l) as [e|keys'] eqn:Hl.
        -- split; [discriminate|]. intros H. inversion H; subst.
           match goal with
           | H' : Forall2 _ l _ |- _ => apply IH in H'; discriminate H'
           end.
        -- split.
           ++ intros [= <-]. constructor; [exact He|now apply IH].
           ++ intros H. inversion H; subst.
              match goal with
              | H' : Forall2 _ l _ |- _ =>
                  apply IH in H'; injection H' as <-
              end.
              congruence.
  - intros good keys bad rest e Hg Hb.
    rewrite parseRepos_app, Hg. simpl. now rewrite Hb.
Qed.

Lemma parseRepos_all_or_first_error_witness :
  parseRepos [JSON.Str "a/b"; JSON.Str "nope"; JSON.Str "/"]
  = inl (Error "Invalid repo: nope. Expected owner/name.").
Proof.
  apply (proj2 parseRepos_all_or_first_error [JSON.Str "a/b"] ["a/b"]
           (JSON.Str "nope") [JSON.Str "/"]); reflexivity.
Defined.

(** ** Files *)

Section Files.

Context {W : Type} (X : Collab W) (args : Args) (env : Env).

Lemma loadReposFromConfig_sys filePath (sys : Sys W) :
  snd (loadReposFromConfig filePath sys) = sys.
Proof.
  unfold loadReposFromConfig, try_catch, bind, readFile, ret, throw.
  destruct (files sys !! filePath) as [content|]; [|reflexivity].
  destruct (JSON.parse content) as [[ |b|n|l|s|items|members]|];
    try reflexivity.
  destruct (property "repos" members) as [[ |b|n|l|s|items|members0]|];
    reflexivity.
Qed.

Lemma loadConfigRepos_sys (sys : Sys W) :
  snd (loadConfigRepos args sys) = sys.
Proof.
  unfold loadConfigRepos.
  destruct (Str.truthy (arg_config_file args)); [|reflexivity].
  apply loadReposFromConfig_sys.
Qed.

(** X3. [readState] never throws and changes nothing: it returns the empty
    state when the file is missing and when the file does not hold
    JSON. *)
Theorem readState_degrades (filePath : string) (sys : Sys W) :
  (exists loaded, readState filePath sys = (inr loaded, sys))
  /\ (files sys !! filePath = None ->
      readState filePath sys = (inr (Some (mkStateFile ∅)), sys))
  /\ (forall data,
        files sys !! filePath = Some data -> JSON.parse data = None ->
        readState filePath sys = (inr (Some (mkStateFile ∅)), sys)).
Proof.
  unfold readState, try_catch, bind, readFile, ret, throw.
  destruct (files sys !! filePath) as [data|].
  - destruct (JSON.parse data) as [v|] eqn:Hp.
    + split; [now eexists|]. split; [discriminate|].
      intros data' [= <-]. congruence.
    + split; [now eexists|]. split; [discriminate|]. reflexivity.
  - split; [now eexists|]. split; reflexivity.
Qed.


(** X6. A configuration error is fatal before anything happens: when the
    config file cannot be loaded, or one entry of the list is not a valid
    identifier, [main] throws that error and leaves the system as it was,
    so that no request was made, no mail sent, no line printed and no file
    written. *)
Theorem main_aborts_untouched (sys : Sys W) (e : Exn) :
  (fst (loadConfigRepos args sys) = inl e
   \/ exists cfg,
        fst (loadConfigRepos args sys) = inr cfg
        /\ parseRepos (repoList args cfg) = inl e) ->
  main X args env sys = (inl e, sys).
Proof.
  intros H. unfold main. unfold bind at 1.
  pose proof (loadConfigRepos_sys sys) as Hs.
  destruct (loadConfigRepos args sys) as [r sys0]. simpl in Hs, H. subst sys0.
  destruct H as [-> | (cfg & -> & Hp)]; [reflexivity|].
  now rewrite Hp.
Qed.

End Files.

(** ** Texts *)

Section Texts.

Lemma length_append (a b : string) :
  String.length (a +:+ b) = (String.length a + String.length b)%nat.
Proof.
  induction a as [|c a IH]; [reflexivity|].
  rewrite append_cons. simpl. now rewrite IH.
Qed.

Lemma mem_append c (a b : string) :
  Str.mem c (a +:+ b) = Str.mem c a || Str.mem c b.
Proof.
  induction a as [|x a IH]; [reflexivity|].
  rewrite append_cons. simpl. now rewrite IH, orb_assoc.
Qed.

Lemma split_segments sep s :
  Forall (fun seg => Str.mem sep seg = false) (Str.split sep s).
Proof.
  induction s as [|c s IH]; simpl.
  - now repeat constructor.
  - destruct (Ascii.eqb c sep) eqn:Hc.
    + now constructor.
    + destruct (Str.split sep s) as [|seg segs].
      * repeat constructor. simpl. now rewrite Hc.
      * apply Forall_cons in IH as [Hseg Hsegs].
        constructor; [|exact Hsegs]. simpl. now rewrite Hc.
Qed.

(** What [strip_ws] drops is a non-empty head of the text. *)
Lemma strip_ws_inv s r :
  Str.strip_ws s = Some r ->
  exists p, p <> "" /\ s = p +:+ r
            /\ forall w, Str.strip_ws (s +:+ w) = Some (r +:+ w).
Proof.
  unfold Str.strip_ws. destruct s as [|c s]; [discriminate|].
  destruct (Str.ws_ascii c) eqn:Hc.
  { intros [= <-]. exists (String c ""). split; [discriminate|].
    split; [reflexivity|]. intros w. rewrite append_cons. now rewrite Hc. }
  destruct s as [|d s]; [discriminate|].
  destruct ((Str.code c =? 194) && (Str.code d =? 160))%N eqn:H2.
  { intros [= <-]. exists (String c (String d "")). split; [discriminate|].
    split; [reflexivity|]. intros w. rewrite !append_cons.
    now rewrite Hc, H2. }
  destruct s as [|e s]; [discriminate|].
  match goal with
  | |- (if ?cond then _ else _) = _ -> _ => destruct cond eqn:H3
  end; [|discriminate].
  intros [= <-]. exists (String c (String d (String e ""))).
  split; [discriminate|]. split; [reflexivity|].
  intros w. rewrite !append_cons. now rewrite Hc, H2, H3.
Qed.

Lemma trimStart_aux_suffix fuel s :
  exists p, s = p +:+ Str.trimStart_aux fuel s.
Proof.
  revert s. induction fuel as [|fuel IH]; intros s; simpl.
  - now exists "".
  - destruct (Str.strip_ws s) as [r|] eqn:Hs; [|now exists ""].
    destruct (strip_ws_inv _ _ Hs) as (p & _ & -> & _).
    destruct (IH r) as [q Hq]. exists (p +:+ q).
    now rewrite append_assoc, <- Hq.
Qed.

Lemma trimStart_aux_done fuel s :
  (String.length s <= fuel)%nat ->
  Str.strip_ws (Str.trimStart_aux fuel s) = None.
Proof.
  revert s. induction fuel as [|fuel IH]; intros s Hl; simpl.
  - destruct s; [reflexivity|simpl in Hl; lia].
  - destruct (Str.strip_ws s) as [r|] eqn:Hs; [|exact Hs].
    apply IH. destruct (strip_ws_inv _ _ Hs) as (p & Hp & -> & _).
    rewrite length_append in Hl. destruct p; [congruence|simpl in Hl; lia].
Qed.

Lemma trimEnd_prefix s : exists w, s = Str.trimEnd s +:+ w.
Proof.
  induction s as [|c s [w IH]]; [now exists ""|].
  change (Str.trimEnd (String c s))
    with (if Str.is_empty (Str.trimStart (String c s)) then ""
          else String c (Str.trimEnd s)).
  destruct (Str.is_empty _).
  - now exists (String c s).
  - exists w. now rewrite append_cons, <- IH.
Qed.

(** X8. Every recipient [listifyTo] returns is the trimmed text between
    two commas: it is not empty, holds no comma and starts with no white
    space. *)
Theorem listifyTo_entries (to : string) (entry : string) :
  entry ∈ listifyTo to ->
  entry <> ""
  /\ Str.mem "," entry = false
  /\ Str.strip_ws entry = None
  /\ exists part, In part (Str.split "," to) /\ entry = Str.trim part.
Proof.
  unfold listifyTo. rewrite list_elem_of_filter, list_elem_of_In, in_map_iff.
  intros [Hne (part & <- & Hin)].
  pose proof (split_segments "," to) as Hseg.
  rewrite List.Forall_forall in Hseg. specialize (Hseg _ Hin).
  destruct (trimStart_aux_suffix (String.length part) part) as [p Hp].
  fold (Str.trimStart part) in Hp.
  destruct (trimEnd_prefix (Str.trimStart part)) as [w Hw].
  fold (Str.trim part) in Hw.
  split; [|split; [|split]].
  - intros He. rewrite He in Hne. exact Hne.
  - rewrite Hp, Hw, !mem_append in Hseg.
    destruct (Str.mem "," (Str.trim part)); [|reflexivity].
    now rewrite orb_true_r in Hseg.
  - destruct (Str.strip_ws (Str.trim part)) as [x|] eqn:Hx; [|reflexivity].
    destruct (strip_ws_inv _ _ Hx) as (_ & _ & _ & Happ).
    specialize (Happ w). rewrite <- Hw in Happ.
    unfold Str.trimStart in Happ.
    now rewrite trimStart_aux_done in Happ.
  - now exists part.
Qed.

Lemma after_gt_shorter s rest :
  Str.after_gt s = Some rest -> (String.length rest < String.length s)%nat.
Proof.
  induction s as [|c s IH]; simpl; [discriminate|].
  destruct (Ascii.eqb c ">").
  - intros [= <-]. lia.
  - intros H. specialize (IH H). lia.
Qed.

Lemma after_gt_append t b :
  Str.mem ">" t = false -> Str.after_gt (t +:+ String ">" b) = Some b.
Proof.
  induction t as [|c t IH]; simpl.
  - intros _. reflexivity.
  - destruct (Ascii.eqb c ">"); simpl; [discriminate|]. exact IH.
Qed.

Lemma replace_tags_S fuel c r :
  Str.replace_tags (S fuel) (String c r)
  = if Ascii.eqb c "<" then
      match r with
      | String d r' =>
          if Ascii.eqb d ">" then String c (Str.replace_tags fuel r)
          else match Str.after_gt r' with
               | Some rest => Str.replace_tags fuel rest
               | None => String c (Str.replace_tags fuel r)
               end
      | EmptyString => String c r
      end
    else String c (Str.replace_tags fuel r).
Proof. reflexivity. Qed.

(** With fuel for every character the result does not depend on the
    fuel. *)
Lemma replace_tags_fuel n :
  forall s f1 f2,
    (String.length s <= n)%nat ->
    (String.length s <= f1)%nat -> (String.length s <= f2)%nat ->
    Str.replace_tags f1 s = Str.replace_tags f2 s.
Proof.
  induction n as [|n IH]; intros s f1 f2 Hn H1 H2.
  - destruct s; [|simpl in Hn; lia]. now destruct f1, f2.
  - destruct s as [|c r]; [now destruct f1, f2|].
    simpl in Hn, H1, H2.
    destruct f1 as [|f1]; [lia|]. destruct f2 as [|f2]; [lia|].
    rewrite !replace_tags_S.
    destruct (Ascii.eqb c "<").
    + destruct r as [|d r']; [reflexivity|].
      destruct (Ascii.eqb d ">").
      * f_equal. apply IH; simpl in *; lia.
      * destruct (Str.after_gt r') as [rest|] eqn:Hg.
        -- apply after_gt_shorter in Hg. apply IH; simpl in *; lia.
        -- f_equal. apply IH; simpl in *; lia.
    + f_equal. apply IH; lia.
Qed.

Lemma replace_tags_plain fuel s :
  Str.mem "<" s = false -> Str.replace_tags fuel s = s.
Proof.
  revert s. induction fuel as [|fuel IH]; intros s; [reflexivity|].
  destruct s as [|c r]; [reflexivity|].
  rewrite replace_tags_S. simpl.
  destruct (Ascii.eqb c "<"); simpl; [discriminate|].
  intros H. now rewrite IH.
Qed.

Lemma replace_tags_shorter n :
  forall s fuel,
    (String.length s <= n)%nat ->
    (String.length (Str.replace_tags fuel s) <= String.length s)%nat.
Proof.
  induction n as [|n IH]; intros s fuel Hn.
  - destruct s; [|simpl in Hn; lia]. now destruct fuel.
  - destruct fuel as [|fuel]; [simpl; lia|].
    destruct s as [|c r]; [simpl; lia|]. simpl in Hn.
    rewrite replace_tags_S.
    destruct (Ascii.eqb c "<").
    + destruct r as [|d r']; [simpl; lia|].
      destruct (Ascii.eqb d ">").
      * specialize (IH (String d r') fuel). simpl in *. lia.
      * destruct (Str.after_gt r') as [rest|] eqn:Hg.
        -- apply after_gt_shorter in Hg.
           specialize (IH rest fuel). simpl in *. lia.
        -- specialize (IH (String d r') fuel). simpl in *. lia.
    + specialize (IH r fuel). simpl. lia.
Qed.

Lemma replace_tags_skip a :
  forall fuel rest,
    Str.mem "<" a = false ->
    Str.replace_tags (String.length a + fuel) (a +:+ rest)
    = a +:+ Str.replace_tags fuel rest.
Proof.
  induction a as [|c a IH]; intros fuel rest; [reflexivity|].
  simpl Str.mem. destruct (Ascii.eqb c "<") eqn:Hc; [discriminate|].
  rewrite orb_false_l. intros H. rewrite !append_cons.
  change (String.length (String c a) + fuel)%nat
    with (S (String.length a + fuel)).
  rewrite replace_tags_S, Hc. now rewrite IH.
Qed.

(** X9. [stripHtml] leaves a text without [<] as it is, never makes a text
    longer, and removes a tag: a text that has no [<] before a [<], then
    at least one character and no [>], then a [>], loses that stretch and
    goes on after it. *)
Theorem stripHtml_spec :
  (forall s, Str.mem "<" s = false -> stripHtml s = s)
  /\ (forall s, (String.length (stripHtml s) <= String.length s)%nat)
  /\ (forall a t b,
        Str.mem "<" a = false -> t <> "" -> Str.mem ">" t = false ->
        stripHtml (a +:+ "<" +:+ t +:+ ">" +:+ b) = a +:+ stripHtml b).
Proof.
  split; [|split].
  - intros s. apply replace_tags_plain.
  - intros s. now apply (replace_tags_shorter (String.length s)).
  - intros a t b Ha Ht Hgt. unfold stripHtml.
    destruct t as [|d t']; [congruence|].
    simpl in Hgt. apply orb_false_iff in Hgt as [Hd Hgt].
    rewrite length_append.
    change ("<" +:+ String d t' +:+ ">" +:+ b)
      with (String "<" (String d (t' +:+ String ">" b))).
    rewrite replace_tags_skip by exact Ha. f_equal.
    change (String.length (String "<" (String d (t' +:+ String ">" b))))
      with (S (S (String.length (t' +:+ String ">" b)))).
    rewrite replace_tags_S, Hd, (after_gt_append _ _ Hgt).
    change (Ascii.eqb "<" "<") with true. cbv iota.
    apply (replace_tags_fuel (String.length b)); [lia| |lia].
    rewrite length_append. simpl. lia.
Qed.

Lemma none_of_append p (a b : string) :
  none_of p (a +:+ b) = none_of p a && none_of p b.
Proof.
  induction a as [|c a IH]; [reflexivity|].
  rewrite append_cons. simpl. now rewrite IH, andb_assoc.
Qed.

(** The entity of a character names it. *)
Lemma escapeHtml_entity_inv c e :
  escapeHtml_entity c = Some e ->
  (c = "&"%char /\ e = "&amp;") \/ (c = "<"%char /\ e = "&lt;")
  \/ (c = ">"%char /\ e = "&gt;") \/ (c = JSON.dquote /\ e = "&quot;")
  \/ (c = "'"%char /\ e = "&#39;").
Proof.
  unfold escapeHtml_entity.
  destruct (Ascii.eqb_spec c "&"); [intros [= <-]; tauto|].
  destruct (Ascii.eqb_spec c "<"); [intros [= <-]; tauto|].
  destruct (Ascii.eqb_spec c ">"); [intros [= <-]; tauto|].
  destruct (Ascii.eqb_spec c JSON.dquote); [intros [= <-]; tauto|].
  destruct (Ascii.eqb_spec c "'"); [intros [= <-]; tauto|].
  discriminate.
Qed.

Lemma escapeHtml_entity_none c :
  escapeHtml_entity c = None ->
  c <> "&"%char /\ is_markup c = false.
Proof.
  unfold escapeHtml_entity, is_markup.
  destruct (Ascii.eqb_spec c "&"); [discriminate|].
  destruct (Ascii.eqb c "<"); [discriminate|].
  destruct (Ascii.eqb c ">"); [discriminate|].
  destruct (Ascii.eqb c JSON.dquote); [discriminate|].
  destruct (Ascii.eqb c "'"); [discriminate|].
  now split.
Qed.

Lemma escapeHtml_cons c r :
  escapeHtml (String c r)
  = match escapeHtml_entity c with
    | Some entity => entity +:+ escapeHtml r
    | None => String c (escapeHtml r)
    end.
Proof. reflexivity. Qed.

Lemma escapeHtml_inj a : forall b, escapeHtml a = escapeHtml b -> a = b.
Proof.
  induction a as [|c a IH]; intros [|d b]; rewrite ?escapeHtml_cons.
  - reflexivity.
  - destruct (escapeHtml_entity d) as [e|] eqn:Hd; [|discriminate].
    destruct (escapeHtml_entity_inv _ _ Hd)
      as [[_ ->]|[[_ ->]|[[_ ->]|[[_ ->]|[_ ->]]]]]; discriminate.
  - destruct (escapeHtml_entity c) as [e|] eqn:Hc; [|discriminate].
    destruct (escapeHtml_entity_inv _ _ Hc)
      as [[_ ->]|[[_ ->]|[[_ ->]|[[_ ->]|[_ ->]]]]]; discriminate.
  - destruct (escapeHtml_entity c) as [e|] eqn:Hc;
      destruct (escapeHtml_entity d) as [e'|] eqn:Hd.
    + destruct (escapeHtml_entity_inv _ _ Hc)
        as [[-> ->]|[[-> ->]|[[-> ->]|[[-> ->]|[-> ->]]]]];
        destruct (escapeHtml_entity_inv _ _ Hd)
          as [[-> ->]|[[-> ->]|[[-> ->]|[[-> ->]|[-> ->]]]]];
        rewrite ?append_cons, ?append_nil_l; intros H;
        try discriminate H; f_equal; apply IH; now injection H.
    + apply escapeHtml_entity_none in Hd as [Hd _].
      destruct (escapeHtml_entity_inv _ _ Hc)
        as [[_ ->]|[[_ ->]|[[_ ->]|[[_ ->]|[_ ->]]]]];
        rewrite ?append_cons; intros [= H _]; congruence.
    + apply escapeHtml_entity_none in Hc as [Hc _].
      destruct (escapeHtml_entity_inv _ _ Hd)
        as [[_ ->]|[[_ ->]|[[_ ->]|[[_ ->]|[_ ->]]]]];
        rewrite ?append_cons; intros [= H _]; congruence.
    + intros [= -> H]. f_equal. now apply IH.
Qed.

(** X10. What [escapeHtml] returns holds none of the characters
    less-than, greater-than, double quote and apostrophe; escaping a text
    piece by piece gives the same as escaping it whole; and two different
    texts are never escaped to the same text. *)
Theorem escapeHtml_safe :
  (forall value, none_of is_markup (escapeHtml value) = true)
  /\ (forall a b, escapeHtml (a +:+ b) = escapeHtml a +:+ escapeHtml b)
  /\ (forall a b, escapeHtml a = escapeHtml b -> a = b).
Proof.
  split; [|split].
  - induction value as [|c r IH]; [reflexivity|].
    rewrite escapeHtml_cons.
    destruct (escapeHtml_entity c) as [e|] eqn:Hc.
    + rewrite none_of_append, IH, andb_true_r.
      destruct (escapeHtml_entity_inv _ _ Hc)
        as [[_ ->]|[[_ ->]|[[_ ->]|[[_ ->]|[_ ->]]]]]; reflexivity.
    + apply escapeHtml_entity_none in Hc as [_ Hc]. simpl.
      now rewrite Hc, IH.
  - induction a as [|c a IH]; intros b; [reflexivity|].
    rewrite append_cons, !escapeHtml_cons.
    destruct (escapeHtml_entity c); rewrite IH.
    + now rewrite append_assoc.
    + now rewrite append_cons.
  - intros a b. apply escapeHtml_inj.
Qed.

End Texts.

(** ** What a run does, counted *)

Section Accounting.

Context {W : Type} (X : Collab W) (args : Args) (env : Env).

Lemma how_many_app p (a b : list Event) :
  how_many p (a ++ b) = (how_many p a + how_many p b)%nat.
Proof.
  induction a as [|e a IH]; [reflexivity|].
  simpl. destruct (p e); rewrite IH; reflexivity.
Qed.

Lemma requests_app (a b : list Event) :
  requests (a ++ b) = requests a ++ requests b.
Proof. apply flat_map_app. Qed.

Lemma header_app name (a b : list (string * string)) :
  header name (a ++ b)
  = match header name a with
    | Some v => Some v
    | None => header name b
    end.
Proof.
  induction a as [|[k v] a IH]; [reflexivity|].
  simpl. now destruct (String.eqb k name).
Qed.

(** The events of one cycle: one request, one line, at most one call of
    [sendEmail]; the line says sent or would-send exactly when [changed]
    is incremented. *)
Lemma reconcile_events state repo sys :
  exists state' notified1 sys' evs,
    reconcile X args env state repo sys = (inr (state', notified1), sys')
    /\ trace sys' = trace sys ++ evs
    /\ requests evs
       = [mkRequest (release_url repo)
            (request_headers args (GITHUB_TOKEN env)
               (etag (repoStateOf state repo)))]
    /\ lines evs = 1%nat
    /\ (sent_lines evs + dry_lines evs)%nat = count 0 notified1
    /\ (sent_lines evs <= sends evs)%nat
    /\ (sends evs <= 1)%nat
    /\ (arg_dry_run args = true -> sends evs = 0%nat)
    /\ (arg_dry_run args = false -> dry_lines evs = 0%nat).
Proof.
  pose proof (fetchLatestRelease_trace X args repo (GITHUB_TOKEN env)
                (etag (repoStateOf state repo)) sys) as [Ht _].
  destruct (fetchLatestRelease X args repo (GITHUB_TOKEN env)
              (etag (repoStateOf state repo)) sys)
    as [[e|[| |release etag']] sys1] eqn:Hf; simpl in Ht.
  - do 4 eexists. split.
    { apply reconcile_recovers, attempt_fetch_error, Hf. }
    split; [simpl; rewrite Ht, <- app_assoc; reflexivity|].
    cbn. repeat split; intros; lia.
  - do 4 eexists. split.
    { apply reconcile_done, attempt_not_modified, Hf. }
    split; [simpl; rewrite Ht, <- app_assoc; reflexivity|].
    cbn. repeat split; intros; lia.
  - do 4 eexists. split.
    { apply reconcile_done, attempt_no_releases, Hf. }
    split; [simpl; rewrite Ht, <- app_assoc; reflexivity|].
    cbn. repeat split; intros; lia.
  - destruct (isNew args (repoStateOf state repo) release) eqn:Hn.
    + destruct (arg_dry_run args) eqn:Hd.
      * do 4 eexists. split.
        { apply reconcile_done.
          apply (attempt_dry_run X args env _ _ _ _ _ _ Hf Hn Hd). }
        split; [simpl; rewrite Ht, <- app_assoc; reflexivity|].
        cbn. repeat split; intros; (lia || congruence).
      * pose proof (sendEmail_trace X env (mail_for X env repo release) sys1)
          as [Hst _].
        destruct (sendEmail X env (mail_for X env repo release) sys1)
          as [[e|[]] sys2] eqn:Hs; simpl in Hst.
        -- do 4 eexists. split.
           { apply reconcile_recovers.
             apply (attempt_send_error X args env _ _ _ _ _ _ _ _
                      Hf Hn Hd Hs). }
           split; [simpl; rewrite Hst, Ht, <- !app_assoc; reflexivity|].
           cbn. repeat split; intros; (lia || congruence).
        -- do 4 eexists. split.
           { apply reconcile_done.
             apply (attempt_sent X args env _ _ _ _ _ _ _ Hf Hn Hd Hs). }
           split; [simpl; rewrite Hst, Ht, <- !app_assoc; reflexivity|].
           cbn. repeat split; intros; (lia || congruence).
    + do 4 eexists. split.
      { apply reconcile_done.
        apply (attempt_tracked X args env _ _ _ _ _ _ Hf Hn). }
      split; [simpl; rewrite Ht, <- app_assoc; reflexivity|].
      cbn. repeat split; intros; lia.
Qed.

Lemma loop_events repos0 :
  forall state changed sys,
  exists state' changed' sys' evs,
    loop X args env repos0 state changed sys
    = (inr (state', changed'), sys')
    /\ trace sys' = trace sys ++ evs
    /\ changed' = (changed + (sent_lines evs + dry_lines evs))%nat
    /\ lines evs = length repos0
    /\ length (requests evs) = length repos0
    /\ (sent_lines evs <= sends evs)%nat
    /\ (sends evs <= length repos0)%nat
    /\ (arg_dry_run args = true -> sends evs = 0%nat)
    /\ (arg_dry_run args = false -> dry_lines evs = 0%nat).
Proof.
  induction repos0 as [|repo rest IH]; intros state changed sys.
  - exists state, changed, sys, []. simpl. unfold ret.
    rewrite app_nil_r. repeat split; try reflexivity; cbn; lia.
  - destruct (reconcile_events state repo sys)
      as (state1 & notified1 & sys1 & evs1 & Hr & Ht1 & Hq1 & Hl1 & Hc1
          & Hs1 & Hm1 & Hd1 & Hn1).
    destruct (IH state1 (count changed notified1) sys1)
      as (state' & changed' & sys' & evs & Hl & Ht & Hc & Hln & Hq & Hs
          & Hm & Hd & Hn).
    exists state', changed', sys', (evs1 ++ evs).
    split; [now rewrite (loop_cons _ _ _ _ _ _ _ _ _ _ _ Hr)|].
    split; [now rewrite Ht, Ht1, app_assoc|].
    unfold sent_lines, dry_lines, sends, lines in *.
    rewrite requests_app, length_app, !how_many_app, Hq1.
    cbn [length].
    assert (count changed notified1
            = (changed + count 0 notified1)%nat) as Hcount
      by (destruct notified1; simpl; lia).
    repeat split; try lia.
    + intros H. specialize (Hd H). specialize (Hd1 H). lia.
    + intros H. specialize (Hn H). specialize (Hn1 H). lia.
Qed.

(** X11. Every cycle makes one request, to the latest-release address
    of its repository.  The request carries the stored validator as
    [If-None-Match] exactly when one is stored, it is not empty and
    [--force] is off, and an [Authorization] header exactly when a token
    is set; the media type, the API version and the user agent are always
    there. *)
Theorem cycle_request state repo sys :
  exists evs req,
    trace (snd (reconcile X args env state repo sys)) = trace sys ++ evs
    /\ requests evs = [req]
    /\ url req = release_url repo
    /\ header "If-None-Match" (headers req)
       = (if Str.truthy (etag (repoStateOf state repo))
             && negb (arg_force args)
          then etag (repoStateOf state repo) else None)
    /\ header "Authorization" (headers req)
       = (if Str.truthy (GITHUB_TOKEN env)
          then option_map formatGithubAuthorization (GITHUB_TOKEN env)
          else None)
    /\ header "Accept" (headers req) = Some "application/vnd.github+json"
    /\ header "X-GitHub-Api-Version" (headers req) = Some "2022-11-28"
    /\ header "User-Agent" (headers req) = Some "ghrelease-cli".
Proof.
  destruct (reconcile_events state repo sys)
    as (state1 & notified1 & sys1 & evs1 & Hr & Ht1 & Hq1 & _).
  exists evs1. eexists. rewrite Hr. split; [exact Ht1|].
  split; [exact Hq1|]. split; [reflexivity|].
  cbn [headers]. unfold request_headers.
  destruct (GITHUB_TOKEN env) as [token|];
    destruct (etag (repoStateOf state repo)) as [e|];
    unfold Str.truthy;
    try destruct (Str.is_empty token); try destruct (Str.is_empty e);
    destruct (arg_force args);
    cbn [negb andb default from_option id option_map];
    rewrite ?header_app; repeat split; reflexivity.
Qed.

Lemma reconcile_changed state repo sys release etag' sys1 state' sys' :
  fetchLatestRelease X args repo (GITHUB_TOKEN env)
    (etag (repoStateOf state repo)) sys = (inr (ok release etag'), sys1) ->
  reconcile X args env state repo sys = (inr (state', true), sys') ->
  exists t,
    state' = setRepoState state repo (notified_record release etag' t).
Proof.
  intros Hf Hr.
  destruct (isNew args (repoStateOf state repo) release) eqn:Hn.
  - destruct (arg_dry_run args) eqn:Hd.
    + rewrite (reconcile_done _ _ _ _ _ _ _ _
                 (attempt_dry_run X args env _ _ _ _ _ _ Hf Hn Hd)) in Hr.
      injection Hr as <- _. now eexists.
    + destruct (sendEmail X env (mail_for X env repo release) sys1)
        as [[e|[]] sys2] eqn:Hs.
      * rewrite (reconcile_recovers _ _ _ _ _ _ _ _
                   (attempt_send_error X args env _ _ _ _ _ _ _ _
                      Hf Hn Hd Hs)) in Hr.
        discriminate Hr.
      * rewrite (reconcile_done _ _ _ _ _ _ _ _
                   (attempt_sent X args env _ _ _ _ _ _ _ Hf Hn Hd Hs))
          in Hr.
        injection Hr as <- _. now eexists.
  - rewrite (reconcile_done _ _ _ _ _ _ _ _
               (attempt_tracked X args env _ _ _ _ _ _ Hf Hn)) in Hr.
    discriminate Hr.
Qed.

(** X12. No release is announced twice.  After a cycle that counted a
    release as new, a later cycle of the same repository that fetches a
    release with the same id and tag, without [--force], announces
    nothing: it prints the already-tracked line, does not count, and the
    record keeps the id, the tag and the publication time of the release
    announced first. *)
Theorem no_second_notification state repo sys release etag' sys1 state' sys'
    sys2 release2 etag2 sys3 :
  fetchLatestRelease X args repo (GITHUB_TOKEN env)
    (etag (repoStateOf state repo)) sys = (inr (ok release etag'), sys1) ->
  reconcile X args env state repo sys = (inr (state', true), sys') ->
  arg_force args = false ->
  fetchLatestRelease X args repo (GITHUB_TOKEN env)
    (etag (repoStateOf state' repo)) sys2 = (inr (ok release2 etag2), sys3) ->
  Release.id release2 = Release.id release ->
  Release.tag_name release2 = Release.tag_name release ->
  exists state2 sys4,
    reconcile X args env state' repo sys2 = (inr (state2, false), sys4)
    /\ trace sys4
       = trace sys3 ++ [EConsole (LogAlreadyTracked repo
                                    (Release.tag_name release)
                                    (Release.id release))]
    /\ notified (repoStateOf state2 repo)
       = (Some (Release.id release), Some (Release.tag_name release),
          Some (Release.published_at release)).
Proof.
  intros Hf Hr Hforce Hf2 Hid Htag.
  destruct (reconcile_changed _ _ _ _ _ _ _ _ Hf Hr) as [t ->].
  assert (Hn : isNew args
                 (repoStateOf
                    (setRepoState state repo (notified_record release etag' t))
                    repo) release2 = false).
  { rewrite repoStateOf_insert. unfold isNew. simpl.
    rewrite Hid, Htag, Hforce, !bool_decide_eq_true_2 by reflexivity.
    reflexivity. }
  rewrite (reconcile_done _ _ _ _ _ _ _ _
             (attempt_tracked X args env _ _ _ _ _ _ Hf2 Hn)).
  do 2 eexists. split; [reflexivity|]. split.
  - simpl. now rewrite Hid, Htag.
  - rewrite !repoStateOf_insert. reflexivity.
Qed.

(** X13. A notification that failed is tried again.  When the release is
    new, the run is no dry run and [sendEmail] throws, the cycle does not
    count, the record keeps its validator and its notified-* triple, and
    a later cycle that fetches the same release calls [sendEmail] with
    the same message again. *)
Theorem failed_send_retried state repo sys release etag' sys1 e sys2 :
  fetchLatestRelease X args repo (GITHUB_TOKEN env)
    (etag (repoStateOf state repo)) sys = (inr (ok release etag'), sys1) ->
  isNew args (repoStateOf state repo) release = true ->
  arg_dry_run args = false ->
  sendEmail X env (mail_for X env repo release) sys1 = (inl e, sys2) ->
  exists state' sys',
    reconcile X args env state repo sys = (inr (state', false), sys')
    /\ etag (repoStateOf state' repo) = etag (repoStateOf state repo)
    /\ notified (repoStateOf state' repo) = notified (repoStateOf state repo)
    /\ forall sysA etagB sysB,
         fetchLatestRelease X args repo (GITHUB_TOKEN env)
           (etag (repoStateOf state' repo)) sysA
         = (inr (ok release etagB), sysB) ->
         exists evs,
           trace (snd (reconcile X args env state' repo sysA))
           = trace sysB ++ ESendEmail (mail_for X env repo release) :: evs.
Proof.
  intros Hf Hn Hd Hs.
  rewrite (reconcile_recovers _ _ _ _ _ _ _ _
             (attempt_send_error X args env _ _ _ _ _ _ _ _ Hf Hn Hd Hs)).
  do 2 eexists. split; [reflexivity|].
  split; [now rewrite repoStateOf_insert|].
  split; [now rewrite repoStateOf_insert|].
  intros sysA etagB sysB HfB.
  assert (HnB : isNew args
                  (repoStateOf
                     (setRepoState state repo
                        (withCheckedAt (repoStateOf state repo)
                           (reading X sys2))) repo) release = true).
  { rewrite repoStateOf_insert. exact Hn. }
  pose proof (sendEmail_trace X env (mail_for X env repo release) sysB)
    as [Hst _].
  destruct (sendEmail X env (mail_for X env repo release) sysB)
    as [[e2|[]] sysC] eqn:HsB; simpl in Hst.
  - rewrite (reconcile_recovers _ _ _ _ _ _ _ _
               (attempt_send_error X args env _ _ _ _ _ _ _ _
                  HfB HnB Hd HsB)).
    simpl. rewrite Hst, <- app_assoc. now eexists.
  - rewrite (reconcile_done _ _ _ _ _ _ _ _
               (attempt_sent X args env _ _ _ _ _ _ _ HfB HnB Hd HsB)).
    simpl. rewrite Hst, <- app_assoc. now eexists.
Qed.

End Accounting.

(** ** Whole runs *)

Section Runs.

Context {W : Type} (X : Collab W) (args : Args) (env : Env).

(** A run of [main] either ends before its loop, having done nothing, or
    goes through the loop and prints the summary. *)
Lemma main_cases (sys : Sys W) :
  (snd (main X args env sys) = sys
   /\ forall changed, fst (main X args env sys) <> inr (Finished changed))
  \/ exists cfg changed sys' evs,
       loadConfigRepos args sys = (inr cfg, sys)
       /\ main X args env sys = (inr (Finished changed), sys')
       /\ trace sys' = trace sys ++ evs ++ [EConsole (LogDone changed)]
       /\ changed = (sent_lines evs + dry_lines evs)%nat
       /\ lines evs = length (repoList args cfg)
       /\ length (requests evs) = length (repoList args cfg)
       /\ (sent_lines evs <= sends evs)%nat
       /\ (sends evs <= length (repoList args cfg))%nat
       /\ (arg_dry_run args = true -> sends evs = 0%nat)
       /\ (arg_dry_run args = false -> dry_lines evs = 0%nat).
Proof.
  pose proof (loadConfigRepos_sys args sys) as Hs.
  destruct (loadConfigRepos args sys) as [[e|cfg] sys0] eqn:Hc;
    simpl in Hs; subst sys0.
  { left. assert (Hm : main X args env sys = (inl e, sys))
      by (unfold main; unfold bind at 1; now rewrite Hc).
    rewrite Hm. split; [reflexivity|intros c H; discriminate H]. }
  destruct (parseRepos (repoList args cfg)) as [e|repos0] eqn:Hp.
  { left. assert (Hm : main X args env sys = (inl e, sys))
      by (unfold main; unfold bind at 1; now rewrite Hc, Hp).
    rewrite Hm. split; [reflexivity|intros c H; discriminate H]. }
  pose proof (readState_sys (default DEFAULT_STATE (arg_state_file args))
                sys) as Hr.
  destruct (readState (default DEFAULT_STATE (arg_state_file args)) sys)
    as [[e|[state|]] sys0] eqn:Hrs; simpl in Hr; subst sys0.
  { left. assert (Hm : main X args env sys = (inl e, sys))
      by (unfold main; unfold bind at 1; rewrite Hc, Hp;
          unfold bind at 1; now rewrite Hrs).
    rewrite Hm. split; [reflexivity|intros c H; discriminate H]. }
  2:{ left. assert (Hm : main X args env sys = (inr IllTypedState, sys))
        by (unfold main; unfold bind at 1; rewrite Hc, Hp;
            unfold bind at 1; now rewrite Hrs).
      rewrite Hm. split; [reflexivity|intros c H; discriminate H]. }
  destruct (loop_events X args env repos0 state 0%nat sys)
    as (state' & changed & sys1 & evs & Hl & Ht & Hch & Hln & Hq & Hle & Hm
        & Hd & Hn).
  assert (Hrs' : fst (readState (default DEFAULT_STATE (arg_state_file args))
                        sys) = inr (Some state)) by now rewrite Hrs.
  right. exists cfg, changed.
  rewrite (main_finishes X args env _ _ _ _ _ _ _ _ Hc Hp Hrs' Hl).
  eexists. exists evs. split; [reflexivity|]. split; [reflexivity|].
  rewrite <- (parseRepos_length _ _ Hp). simpl. rewrite Ht, <- app_assoc.
  repeat split; assumption.
Qed.

(** X14. The summary counts what was announced.  When [main] prints its
    summary, the number it gives is the number of lines that say an email
    was sent or would be sent; the run made one request and printed one
    line per entry of the list of repositories; every sent line follows a
    call of [sendEmail], of which there is at most one per entry; and a
    run that is no dry run prints no would-send line. *)
Theorem main_summary (sys : Sys W) (changed : nat) (sys' : Sys W) :
  main X args env sys = (inr (Finished changed), sys') ->
  exists cfg evs,
    loadConfigRepos args sys = (inr cfg, sys)
    /\ trace sys' = trace sys ++ evs ++ [EConsole (LogDone changed)]
    /\ changed = (sent_lines evs + dry_lines evs)%nat
    /\ lines evs = length (repoList args cfg)
    /\ length (requests evs) = length (repoList args cfg)
    /\ (sent_lines evs <= sends evs)%nat
    /\ (sends evs <= length (repoList args cfg))%nat
    /\ (arg_dry_run args = false -> dry_lines evs = 0%nat).
Proof.
  intros Hm.
  destruct (main_cases sys)
    as [[_ Hno]|(cfg & changed0 & sys0 & evs & Hc & Hm0 & Ht & Hch & Hl & Hq
                 & Hle & Hs & _ & Hn)].
  - exfalso. apply (Hno changed). now rewrite Hm.
  - rewrite Hm in Hm0. injection Hm0 as <- <-.
    exists cfg, evs. repeat split; assumption.
Qed.

(** X15. A dry run sends nothing: with [--dry-run], and a state file
    that is missing, is not JSON or holds a state document, the script,
    whatever its other arguments, its environment and the answers it
    gets, never calls [sendEmail] and never prints that an email was
    sent; and when the list of repositories is given and parses, it still
    makes its request and prints its line for every entry. *)
Theorem dry_run_never_sends (sys : Sys W) (state : StateFile) :
  arg_dry_run args = true ->
  fst (readState (default DEFAULT_STATE (arg_state_file args)) sys)
  = inr (Some state) ->
  (exists evs,
     trace (snd (cli X args env sys)) = trace sys ++ evs
     /\ sends evs = 0%nat
     /\ sent_lines evs = 0%nat)
  /\ (forall cfg repos0,
        arg_help args = false ->
        loadConfigRepos args sys = (inr cfg, sys) ->
        repoList args cfg <> [] ->
        parseRepos (repoList args cfg) = inr repos0 ->
        exists changed sys' evs,
          cli X args env sys = (inr (Finished changed), sys')
          /\ trace sys' = trace sys ++ evs ++ [EConsole (LogDone changed)]
          /\ sends evs = 0%nat
          /\ length (requests evs) = length repos0
          /\ lines evs = length repos0
          /\ dry_lines evs = changed).
Proof.
  intros Hdry Hstate. split.
  - assert (Hnil : exists evs : list Event,
              trace sys = trace sys ++ evs
              /\ sends evs = 0%nat /\ sent_lines evs = 0%nat).
    { exists []. now rewrite app_nil_r. }
    unfold cli. destruct (arg_help args); [exact Hnil|].
    destruct (_ && _); [exact Hnil|].
    destruct (main_cases sys)
      as [[-> _]|(cfg & changed & sys' & evs & _ & -> & Ht & _ & _ & _
                  & Hle & _ & Hd & _)]; [exact Hnil|].
    specialize (Hd Hdry). exists (evs ++ [EConsole (LogDone changed)]).
    simpl. split; [exact Ht|].
    unfold sends, sent_lines in *. rewrite !how_many_app. simpl. lia.
  - intros cfg repos0 Hhelp Hc Hne Hp.
    assert (Hcli : cli X args env sys = main X args env sys).
    { unfold cli. rewrite Hhelp.
      destruct (Str.truthy (arg_config_file args)) eqn:Ht;
        [now rewrite andb_false_r|].
      rewrite (loadConfigRepos_none _ _ Ht) in Hc. injection Hc as <-.
      unfold repoList in Hne. rewrite app_nil_r in Hne.
      destruct (default [] (arg_repo args)); [|reflexivity].
      now contradiction Hne. }
    rewrite Hcli.
    destruct (main_cases sys)
      as [[_ Hno]|(cfg' & changed & sys' & evs & Hc' & Hm & Ht & Hch & Hl
                   & Hq & Hle & _ & Hd & _)].
    + exfalso.
      destruct (loop_events X args env repos0 state 0%nat sys)
        as (state' & changed & sys1 & evs & Hl & _).
      apply (Hno changed).
      now rewrite (main_finishes X args env _ _ _ _ _ _ _ _ Hc Hp Hstate Hl).
    + rewrite Hc in Hc'. injection Hc' as <-.
      exists changed, sys', evs. specialize (Hd Hdry).
      rewrite <- (parseRepos_length _ _ Hp) in Hl, Hq.
      split; [exact Hm|]. split; [exact Ht|]. split; [exact Hd|].
      split; [exact Hq|]. split; [exact Hl|]. lia.
Qed.

(** X16. Resend comes first.  With [RESEND_API_KEY] set, what [sendEmail]
    does depends neither on the SMTP transport nor on the SMTP settings,
    and it throws exactly when the transport throws or reports an error.
    With neither [RESEND_API_KEY] nor [SMTP_HOST] set it throws the
    no-provider error without calling a transport. *)
Theorem sendEmail_provider (input : MailInput) (sys : Sys W) :
  (Str.truthy (RESEND_API_KEY env) = true ->
   (forall (X' : Collab W) (env' : Env),
      resend_send X' = resend_send X ->
      RESEND_API_KEY env' = RESEND_API_KEY env ->
      sendEmail X' env' input sys = sendEmail X env input sys)
   /\ (fst (sendEmail X env input sys) = inr tt <->
       fst (resend_send X input (world sys)) = inr None))
  /\ (Str.truthy (RESEND_API_KEY env) = false ->
      Str.truthy (SMTP_HOST env) = false ->
      sendEmail X env input sys
      = (inl (Error
           "No email provider configured. Set RESEND_API_KEY or SMTP_* env vars."),
         mkSys (world sys) (files sys) (trace sys ++ [ESendEmail input]))).
Proof.
  split.
  - intros Hk. split.
    + intros X' env' HX Henv. unfold sendEmail, bind, emit, call.
      now rewrite Henv, Hk, HX.
    + unfold sendEmail, bind, emit, call, ret, throw. rewrite Hk. simpl.
      destruct (resend_send X input (world sys)) as [[e|[msg|]] w]; simpl;
        split; congruence.
  - intros Hk Hh. unfold sendEmail, bind, emit. now rewrite Hk, Hh.
Qed.

End Runs.

(** ** The further properties on scripted runs *)

Section FurtherScenarios.

Import Scripted.

Lemma readState_degrades_witness :
  readState "./state.json" (start [] [])
  = (inr (Some (mkStateFile ∅)), start [] [])
  /\ readState "./state.json"
       (mkSys (mkWorld [] [] [] 0) {[ "./state.json" := "{ repos: " ]} [])
     = (inr (Some (mkStateFile ∅)),
        mkSys (mkWorld [] [] [] 0) {[ "./state.json" := "{ repos: " ]} []).
Proof.
  split.
  - apply (proj1 (proj2 (readState_degrades "./state.json" (start [] [])))).
    reflexivity.
  - apply (proj2 (proj2 (readState_degrades "./state.json"
                           (mkSys (mkWorld [] [] [] 0)
                              {[ "./state.json" := "{ repos: " ]} [])))
             "{ repos: "); reflexivity.
Defined.


Lemma main_aborts_untouched_witness :
  main collab (args_of ["octo"] false false) env_resend
    (start [found 10 "v1.0.0" None] [])
  = (inl (Error "Invalid repo: octo. Expected owner/name."),
     start [found 10 "v1.0.0" None] []).
Proof.
  apply main_aborts_untouched. right. exists []. split; reflexivity.
Defined.

Lemma listifyTo_entries_witness :
  listifyTo " dev@example.test, ,ops@example.test "
  = ["dev@example.test"; "ops@example.test"]
  /\ Str.mem "," "ops@example.test" = false
  /\ Str.strip_ws "ops@example.test" = None.
Proof.
  split; [reflexivity|].
  assert (H : "ops@example.test"
              ∈ listifyTo " dev@example.test, ,ops@example.test ").
  { apply list_elem_of_In. vm_compute. right. left. reflexivity. }
  destruct (listifyTo_entries _ _ H) as (_ & Hc & Hw & _).
  split; [exact Hc|exact Hw].
Defined.

Lemma stripHtml_spec_witness :
  stripHtml "<h2>octo/demo" = "octo/demo".
Proof.
  exact (eq_trans
           (proj2 (proj2 stripHtml_spec) "" "h2" "octo/demo" eq_refl
              (fun H => eq_ind "h2"%string
                          (fun s => match s with
                                    | EmptyString => False
                                    | String _ _ => True
                                    end) I _ H)
              eq_refl)
           (proj1 stripHtml_spec "octo/demo" eq_refl)).
Defined.

Lemma no_second_notification_witness :
  exists state2 sys4,
    reconcile collab real_send env_resend tracked "octo/demo"
      (start [found 10 "v1.0.0" (Some "e1")] [])
    = (inr (state2, false), sys4)
    /\ trace sys4
       = [EFetch (mkRequest (release_url "octo/demo")
                    (request_headers real_send None (Some "e0")));
          EConsole (LogAlreadyTracked "octo/demo" "v1.0.0" 10)]
    /\ notified (repoStateOf state2 "octo/demo")
       = (Some 10, Some "v1.0.0", Some "2024-01-01T00:00:00Z").
Proof.
  set (sys0 := start [found 10 "v1.0.0" (Some "e0")] []).
  set (sys2 := start [found 10 "v1.0.0" (Some "e1")] []).
  destruct (fetchLatestRelease collab real_send "octo/demo" None None sys0)
    as [r1 sys1] eqn:Hf.
  assert (H1 : r1 = inr (ok (release 10 "v1.0.0") (Some "e0")))
    by (vm_compute in Hf; now injection Hf as <- _).
  subst r1.
  destruct (reconcile collab real_send env_resend no_state "octo/demo" sys0)
    as [r sys'] eqn:Hr.
  assert (H2 : r = inr (tracked, true))
    by (vm_compute in Hr; now injection Hr as <- _).
  subst r.
  destruct (fetchLatestRelease collab real_send "octo/demo" None (Some "e0")
              sys2) as [r3 sys3] eqn:Hf2.
  assert (H3 : r3 = inr (ok (release 10 "v1.0.0") (Some "e1")))
    by (vm_compute in Hf2; now injection Hf2 as <- _).
  subst r3.
  destruct (no_second_notification collab real_send env_resend no_state
              "octo/demo" sys0 (release 10 "v1.0.0") (Some "e0") sys1
              tracked sys' sys2 (release 10 "v1.0.0") (Some "e1") sys3
              Hf Hr eq_refl Hf2 eq_refl eq_refl)
    as (state2 & sys4 & Hr2 & Ht & Hn).
  exists state2, sys4. split; [exact Hr2|]. split; [|exact Hn].
  rewrite Ht. vm_compute in Hf2. injection Hf2 as <-. reflexivity.
Defined.

Lemma failed_send_retried_witness :
  exists state' sys',
    reconcile collab real_send env_resend no_state "octo/demo"
      (start [found 10 "v1.0.0" (Some "e1")]
             [inr (Some "domain is not verified")])
    = (inr (state', false), sys')
    /\ etag (repoStateOf state' "octo/demo") = None
    /\ notified (repoStateOf state' "octo/demo") = (None, None, None).
Proof.
  set (sys0 := start [found 10 "v1.0.0" (Some "e1")]
                     [inr (Some "domain is not verified")]).
  destruct (fetchLatestRelease collab real_send "octo/demo" None None sys0)
    as [r sys1] eqn:Hf.
  destruct (sendEmail collab env_resend
              (mail_for collab env_resend "octo/demo" (release 10 "v1.0.0"))
              sys1)
    as [[e|u] sysE] eqn:Hs;
    [|vm_compute in Hf; injection Hf as <- <-;
      vm_compute in Hs; discriminate Hs].
  assert (H1 : r = inr (ok (release 10 "v1.0.0") (Some "e1")))
    by (vm_compute in Hf; now injection Hf as <- _).
  subst r.
  destruct (failed_send_retried collab real_send env_resend no_state
              "octo/demo" sys0 (release 10 "v1.0.0") (Some "e1") sys1 e sysE
              Hf eq_refl eq_refl Hs)
    as (state' & sys' & Hr & He & Hn & _).
  exists state', sys'. split; [exact Hr|]. split; [exact He|exact Hn].
Defined.

Lemma main_summary_witness :
  exists evs,
    trace (snd (main collab real_send env_resend
                  (start [found 10 "v1.0.0" (Some "e1")] [])))
    = evs ++ [EConsole (LogDone 1)]
    /\ (sent_lines evs + dry_lines evs)%nat = 1%nat
    /\ lines evs = 1%nat
    /\ sends evs = 1%nat.
Proof.
  set (sys0 := start [found 10 "v1.0.0" (Some "e1")] []).
  destruct (main collab real_send env_resend sys0) as [r sys'] eqn:Hm.
  assert (H1 : r = inr (Finished 1))
    by (vm_compute in Hm; now injection Hm as <- _).
  subst r.
  destruct (main_summary collab real_send env_resend sys0 1%nat sys' Hm)
    as (cfg & evs & Hc & Ht & Hch & Hl & _ & Hle & Hs & Hn).
  vm_compute in Hc. injection Hc as <-. specialize (Hn eq_refl).
  change (length (repoList real_send [])) with 1%nat in *.
  exists evs. split; [exact Ht|]. split; [now symmetry|].
  split; [exact Hl|]. lia.
Defined.

Lemma dry_run_never_sends_witness :
  exists changed sys' evs,
    cli collab dry_run env_resend
      (start [found 10 "v1.0.0" (Some "e1")] [])
    = (inr (Finished changed), sys')
    /\ trace sys' = evs ++ [EConsole (LogDone changed)]
    /\ sends evs = 0%nat
    /\ length (requests evs) = 1%nat
    /\ lines evs = 1%nat
    /\ dry_lines evs = changed.
Proof.
  assert (Hne : repoList dry_run [] <> []) by discriminate.
  exact (proj2 (dry_run_never_sends collab dry_run env_resend
                  (start [found 10 "v1.0.0" (Some "e1")] []) no_state
                  eq_refl eq_refl)
           [] ["octo/demo"] eq_refl eq_refl Hne eq_refl).
Defined.

Lemma sendEmail_provider_witness :
  fst (sendEmail collab env_resend
         (mkMailInput ["dev@example.test"] "bot@example.test" "subject"
                      "<p>html</p>" None)
         (start [] []))
  = inr tt
  /\ fst (sendEmail collab
            (mkEnv None "dev@example.test" "bot@example.test" None None
                   None None None None)
            (mkMailInput ["dev@example.test"] "bot@example.test" "subject"
                         "<p>html</p>" None)
            (start [] []))
     = inl (Error
         "No email provider configured. Set RESEND_API_KEY or SMTP_* env vars.").
Proof.
  split.
  - apply (proj2 (proj1 (sendEmail_provider collab env_resend _ _) eq_refl)).
    reflexivity.
  - now rewrite (proj2 (sendEmail_provider collab
                          (mkEnv None "dev@example.test" "bot@example.test"
                                 None None None None None None) _ _)
                   eq_refl eq_refl).
Defined.

End FurtherScenarios.
